(** * The IMU state variable of ov_type (ov_core/src/types/IMU.h)

    A shallow embedding of [ov_type::IMU] and of the classes it is built
    from.  Objects live in a store indexed by addresses, because the
    variable and its sub-variables are shared through [std::shared_ptr]
    and compared by identity; methods are programs in a state monad over
    that store whose failure case keeps the store of the moment a failed
    [assert] stopped the program.  Scalars are IEEE binary64 numbers. *)

From Stdlib Require Import ZArith Lia List PrimFloat.
From stdpp Require Import base option gmap list.

Open Scope Z_scope.

(** ** Scalars and machine integers *)

Abbreviation double := float (only parsing).

(** [int] is a 32-bit two's complement integer: a sum is reduced into the
    range from [- 2 ^ 31] to [2 ^ 31 - 1]. *)
Definition wrap_int (z : Z) : Z := (z + 2 ^ 31) mod 2 ^ 32 - 2 ^ 31.
Definition int_add (a b : Z) : Z := wrap_int (a + b).

(** ** Eigen matrices

    A dynamically sized matrix of doubles, stored column by column as Eigen
    does.  A fixed-size [Eigen::Matrix<double, n, 1>] is the same record
    with its shape known. *)

Record MatrixXd := Mat { rows : nat; cols : nat; coeffs : list double }.

(** [m(r, c)] *)
Definition coeff (m : MatrixXd) (r c : nat) : double :=
  nth (c * rows m + r)%nat (coeffs m) 0%float.

(** the [p] x [q] matrix whose coefficient at [(r, c)] is [f r c] *)
Definition generate (p q : nat) (f : nat -> nat -> double) : MatrixXd :=
  Mat p q (flat_map (fun c => map (fun r => f r c) (seq 0 p)) (seq 0 q)).

(** [Eigen::VectorXd::Zero(n, 1)] *)
Definition Zero (p q : nat) : MatrixXd := generate p q (fun _ _ => 0%float).

(** [m(r, c) = x] *)
Definition set_coeff (m : MatrixXd) (r c : nat) (x : double) : MatrixXd :=
  generate (rows m) (cols m)
    (fun r' c' => if (r' =? r)%nat && (c' =? c)%nat then x else coeff m r' c').

(** [m.block(i, j, p, q)] read as a value *)
Definition block (m : MatrixXd) (i j p q : nat) : MatrixXd :=
  generate p q (fun r c => coeff m (i + r) (j + c)).

Definition in_block (i j p q r c : nat) : bool :=
  (i <=? r)%nat && (r <? i + p)%nat && (j <=? c)%nat && (c <? j + q)%nat.

(** [m.block(i, j, p, q) = b] *)
Definition set_block (m : MatrixXd) (i j p q : nat) (b : MatrixXd) : MatrixXd :=
  generate (rows m) (cols m)
    (fun r c => if in_block i j p q r c then coeff b (r - i) (c - j) else coeff m r c).

(** [a + b], coefficient by coefficient, with the shape of [a] *)
Definition mat_add (a b : MatrixXd) : MatrixXd :=
  generate (rows a) (cols a) (fun r c => (coeff a r c + coeff b r c)%float).

(** [m.block(i, j, p, q) += b] *)
Definition add_block (m : MatrixXd) (i j p q : nat) (b : MatrixXd) : MatrixXd :=
  set_block m i j p q (mat_add (block m i j p q) b).

(** [s * m] *)
Definition scale (s : double) (m : MatrixXd) : MatrixXd :=
  generate (rows m) (cols m) (fun r c => (s * coeff m r c)%float).

(** [dq << v, x] for a 3-vector [v]: the 4-vector [v(0), v(1), v(2), x] *)
Definition comma4 (v : MatrixXd) (x : double) : MatrixXd :=
  Mat 4 1 [coeff v 0 0; coeff v 1 0; coeff v 2 0; x].

Definition has_shape (m : MatrixXd) (p q : nat) : bool :=
  (rows m =? p)%nat && (cols m =? q)%nat.

(** the block [(i, j, p, q)] lies within [m] *)
Definition block_fits (m : MatrixXd) (i j p q : nat) : bool :=
  (i + p <=? rows m)%nat && (j + q <=? cols m)%nat.

(** ** utils/quat_ops.h *)

(** Modelled from the spec: utils/quat_ops.h is not among the sources.
    The Euclidean norm of a 4-vector. *)
Definition norm4 (q : MatrixXd) : double :=
  (sqrt (coeff q 0 0 * coeff q 0 0 + coeff q 1 0 * coeff q 1 0
         + coeff q 2 0 * coeff q 2 0 + coeff q 3 0 * coeff q 3 0))%float.

(** Modelled from the spec: utils/quat_ops.h is not among the sources.
    [quatnorm] is the spec's "normalize": the quaternion (scalar last) with
    a non-negative scalar part, divided by its norm. *)
Definition quatnorm (q_t : MatrixXd) : MatrixXd :=
  let s := if (coeff q_t 3 0 <? 0)%float then (-1)%float else 1%float in
  let q := scale s q_t in
  let n := norm4 q in
  Mat 4 1 [(coeff q 0 0 / n)%float; (coeff q 1 0 / n)%float;
           (coeff q 2 0 / n)%float; (coeff q 3 0 / n)%float].

(** Modelled from the spec: utils/quat_ops.h is not among the sources.
    [quat_multiply q p] is the spec's [q ⊗ p]: the JPL product of two
    scalar-last quaternions, made unique and renormalised. *)
Definition quat_multiply (q p : MatrixXd) : MatrixXd :=
  let q1 := coeff q 0 0 in let q2 := coeff q 1 0 in
  let q3 := coeff q 2 0 in let q4 := coeff q 3 0 in
  let p1 := coeff p 0 0 in let p2 := coeff p 1 0 in
  let p3 := coeff p 2 0 in let p4 := coeff p 3 0 in
  quatnorm (Mat 4 1
    [(q4 * p1 + q3 * p2 + - q2 * p3 + q1 * p4)%float;
     (- q3 * p1 + q4 * p2 + q1 * p3 + q2 * p4)%float;
     (q2 * p1 + - q1 * p2 + q4 * p3 + q3 * p4)%float;
     (- q1 * p1 + - q2 * p2 + - q3 * p3 + q4 * p4)%float]).

(** ** The store *)

Abbreviation loc := positive (only parsing).

(** [std::shared_ptr<T>]: an address, or [nullptr]. *)
Abbreviation ptr := (option positive) (only parsing).

(** Modelled from the spec: Type.h is not among the sources.  The members
    of the base class [Type] (the spec's ManifoldBlock): linearization
    value, value, covariance index and error dimension. *)
Record Type_ := mkType { _fej : MatrixXd; _value : MatrixXd; _id : Z; _size : Z }.

Definition with_fej (b : Type_) (m : MatrixXd) : Type_ :=
  mkType m (_value b) (_id b) (_size b).
Definition with_value (b : Type_) (m : MatrixXd) : Type_ :=
  mkType (_fej b) m (_id b) (_size b).
Definition with_id (b : Type_) (i : Z) : Type_ :=
  mkType (_fej b) (_value b) i (_size b).

(** An object is the [Type] part together with the members its class adds:
    [Vec] and [JPLQuat] add none that the IMU reads, [PoseJPL] adds [_q]
    and [_p], [IMU] adds its five sub-variables. *)
Inductive Obj :=
| OVec (b : Type_)
| OJPLQuat (b : Type_)
| OPoseJPL (b : Type_) (_q _p : ptr)
| OIMU (b : Type_) (_pose _v _bg _ba _keyframe_pose : ptr).

Definition base (o : Obj) : Type_ :=
  match o with
  | OVec b | OJPLQuat b | OPoseJPL b _ _ | OIMU b _ _ _ _ _ => b
  end.

Definition with_base (o : Obj) (b : Type_) : Obj :=
  match o with
  | OVec _ => OVec b
  | OJPLQuat _ => OJPLQuat b
  | OPoseJPL _ q p => OPoseJPL b q p
  | OIMU _ pose v bg ba kf => OIMU b pose v bg ba kf
  end.

(** The store maps the addresses in use to objects; [next] is the address
    the next allocation returns. *)
Record heap := Heap { objs : gmap positive Obj; next : positive }.

Definition empty_heap : heap := Heap ∅ 1%positive.

(** ** Programs *)

(** A program either returns with a result and a store, or is stopped by a
    failed assertion ([Abort], with the store as it was at that moment), or
    goes wrong by using a pointer that is null, dangling or of another
    class ([Undef]). *)
Inductive outcome (A : Type) :=
| Ok (x : A) (h : heap)
| Abort (h : heap)
| Undef.
Arguments Ok {A} x h.
Arguments Abort {A} h.
Arguments Undef {A}.

Definition M (A : Type) : Type := heap -> outcome A.

Definition ret {A} (x : A) : M A := fun h => Ok x h.
Definition bind {A B} (m : M A) (k : A -> M B) : M B :=
  fun h => match m h with
           | Ok x h' => k x h'
           | Abort h' => Abort h'
           | Undef => Undef
           end.

Notation "'do' x <- m ; k" := (bind m (fun x => k))
  (at level 10, x name, m at level 100, k at level 200).
Notation "m ;; k" := (bind m (fun _ => k))
  (at level 100, k at level 200, right associativity).

(** [assert(b)], with assertions compiled in: a false [b] stops the program
    where it is. *)
Definition assert (b : bool) : M unit := fun h => if b then Ok tt h else Abort h.

Definition undef {A} : M A := fun _ => Undef.

(** [*p] *)
Definition deref (p : ptr) : M Obj :=
  fun h => match p with
           | Some a => match objs h !! a with Some o => Ok o h | None => Undef end
           | None => Undef
           end.

(** write the object at [a] *)
Definition store (a : loc) (o : Obj) : M unit :=
  fun h => Ok tt (Heap (<[a := o]> (objs h)) (next h)).

(** [new], also used for an object with automatic storage *)
Definition alloc (o : Obj) : M loc :=
  fun h => Ok (next h) (Heap (<[next h := o]> (objs h)) (Pos.succ (next h))).

(** the end of an object's lifetime *)
Definition free (a : loc) : M unit :=
  fun h => Ok tt (Heap (delete a (objs h)) (next h)).

(** update the [Type] members of the object [p] points to *)
Definition modify_base (p : ptr) (f : Type_ -> Type_) : M unit :=
  do o <- deref p;
  match p with
  | Some a => store a (with_base o (f (base o)))
  | None => undef
  end.

(** ** Type.h *)

(** Modelled from the spec: Type.h is not among the sources.  [Type(size_)]
    leaves the block unregistered (index -1) with empty value and
    linearization value. *)
Definition Type_ctor (size_ : Z) : Type_ := mkType (Mat 0 0 []) (Mat 0 0 []) (-1) size_.

(** Modelled from the spec: [Type::set_local_id] sets the covariance
    index. *)
Definition Type_set_local_id (this : ptr) (new_id : Z) : M unit :=
  modify_base this (fun b => with_id b new_id).

(** Modelled from the spec: [Type::id()], the covariance index. *)
Definition Type_id (this : ptr) : M Z := do o <- deref this; ret (_id (base o)).

(** Modelled from the spec: [Type::size()], the error dimension. *)
Definition Type_size (this : ptr) : M Z := do o <- deref this; ret (_size (base o)).

(** Modelled from the spec: [Type::value()]. *)
Definition Type_value (this : ptr) : M MatrixXd := do o <- deref this; ret (_value (base o)).

(** Modelled from the spec: [Type::fej()], the linearization value. *)
Definition Type_fej (this : ptr) : M MatrixXd := do o <- deref this; ret (_fej (base o)).

(** Modelled from the spec: [Type::set_value] overwrites the value
    wholesale and fails if the ambient dimension mismatches. *)
Definition Type_set_value (this : ptr) (new_value : MatrixXd) : M unit :=
  do o <- deref this;
  assert (rows (_value (base o)) =? rows new_value)%nat;;
  assert (cols (_value (base o)) =? cols new_value)%nat;;
  modify_base this (fun b => with_value b new_value).

(** Modelled from the spec: [Type::set_fej], as [Type::set_value] for the
    linearization value. *)
Definition Type_set_fej (this : ptr) (new_value : MatrixXd) : M unit :=
  do o <- deref this;
  assert (rows (_fej (base o)) =? rows new_value)%nat;;
  assert (cols (_fej (base o)) =? cols new_value)%nat;;
  modify_base this (fun b => with_fej b new_value).

(** ** Vec.h and JPLQuat.h *)

(** Modelled from the spec: Vec.h is not among the sources.  [Vec(dim)],
    the spec's EuclideanBlock: error dimension [dim], value and
    linearization value zero. *)
Definition Vec_new (dim : nat) : M ptr :=
  do a <- alloc (OVec (mkType (Zero dim 1) (Zero dim 1) (-1) (Z.of_nat dim)));
  ret (Some a).

(** Modelled from the spec: the default value of a [JPLQuat], the identity
    quaternion, scalar last. *)
Definition q0 : MatrixXd := set_coeff (Zero 4 1) 3 0 1%float.

(** Modelled from the spec: JPLQuat.h is not among the sources.
    [JPLQuat()], the spec's UnitQuaternionBlock: ambient dimension 4, error
    dimension 3, identity orientation.  The rotation matrix the class keeps
    next to the quaternion is left out: no operation of the IMU reads it
    back into the value, the linearization value or an index. *)
Definition JPLQuat_new : M ptr :=
  do a <- alloc (OJPLQuat (mkType q0 q0 (-1) 3));
  ret (Some a).

(** Modelled from the spec: [JPLQuat::set_value] overwrites the value and
    fails unless it is given a 4 x 1 matrix. *)
Definition JPLQuat_set_value (this : ptr) (new_value : MatrixXd) : M unit :=
  assert (rows new_value =? 4)%nat;;
  assert (cols new_value =? 1)%nat;;
  modify_base this (fun b => with_value b new_value).

(** Modelled from the spec: [JPLQuat::set_fej], as [JPLQuat::set_value]. *)
Definition JPLQuat_set_fej (this : ptr) (new_value : MatrixXd) : M unit :=
  assert (rows new_value =? 4)%nat;;
  assert (cols new_value =? 1)%nat;;
  modify_base this (fun b => with_fej b new_value).

(** ** PoseJPL.h *)

(** Modelled from the spec: PoseJPL.h is not among the sources.  The
    member [_q] of a [PoseJPL], the spec's PoseBlock. *)
Definition PoseJPL_q (this : ptr) : M ptr :=
  do o <- deref this;
  match o with OPoseJPL _ q _ => ret q | _ => undef end.

(** Modelled from the spec: the member [_p] of a [PoseJPL]. *)
Definition PoseJPL_p (this : ptr) : M ptr :=
  do o <- deref this;
  match o with OPoseJPL _ _ p => ret p | _ => undef end.

(** Modelled from the spec: PoseJPL.h is not among the sources.
    [PoseJPL::set_value_internal]: the 7-vector is quaternion first,
    position second; each part goes to its sub-variable, then the whole is
    stored. *)
Definition PoseJPL_set_value_internal (this : ptr) (new_value : MatrixXd) : M unit :=
  assert (rows new_value =? 7)%nat;;
  assert (cols new_value =? 1)%nat;;
  do q <- PoseJPL_q this;
  JPLQuat_set_value q (block new_value 0 0 4 1);;
  do p <- PoseJPL_p this;
  Type_set_value p (block new_value 4 0 3 1);;
  modify_base this (fun b => with_value b new_value).

(** Modelled from the spec: [PoseJPL::set_fej_internal]. *)
Definition PoseJPL_set_fej_internal (this : ptr) (new_value : MatrixXd) : M unit :=
  assert (rows new_value =? 7)%nat;;
  assert (cols new_value =? 1)%nat;;
  do q <- PoseJPL_q this;
  JPLQuat_set_fej q (block new_value 0 0 4 1);;
  do p <- PoseJPL_p this;
  Type_set_fej p (block new_value 4 0 3 1);;
  modify_base this (fun b => with_fej b new_value).

(** Modelled from the spec: [PoseJPL::set_value]. *)
Definition PoseJPL_set_value (this : ptr) (new_value : MatrixXd) : M unit :=
  PoseJPL_set_value_internal this new_value.

(** Modelled from the spec: [PoseJPL::set_fej]. *)
Definition PoseJPL_set_fej (this : ptr) (new_value : MatrixXd) : M unit :=
  PoseJPL_set_fej_internal this new_value.

(** Modelled from the spec: the default value of a [PoseJPL], identity
    orientation and zero position. *)
Definition pose0 : MatrixXd := set_coeff (Zero 7 1) 3 0 1%float.

(** Modelled from the spec: [PoseJPL()], the spec's PoseBlock: one
    quaternion and one position, error dimension 6, default value. *)
Definition PoseJPL_new : M ptr :=
  do this <- alloc (OPoseJPL (Type_ctor 6) None None);
  do q <- JPLQuat_new;
  store this (OPoseJPL (Type_ctor 6) q None);;
  do p <- Vec_new 3;
  store this (OPoseJPL (Type_ctor 6) q p);;
  PoseJPL_set_value_internal (Some this) pose0;;
  PoseJPL_set_fej_internal (Some this) pose0;;
  ret (Some this).

(** Modelled from the spec: the end of a [PoseJPL]: it releases the two
    sub-variables it owns, then its own storage. *)
Definition PoseJPL_delete (this : ptr) : M unit :=
  do o <- deref this;
  match o, this with
  | OPoseJPL _ (Some q) (Some p), Some a => free q;; free p;; free a
  | _, _ => undef
  end.

(** Modelled from the spec: [PoseJPL::set_local_id]: the quaternion and the
    position share the pose's covariance index. *)
Definition PoseJPL_set_local_id (this : ptr) (new_id : Z) : M unit :=
  modify_base this (fun b => with_id b new_id);;
  do q <- PoseJPL_q this;
  Type_set_local_id q new_id;;
  do p <- PoseJPL_p this;
  Type_set_local_id p new_id.

(** Modelled from the spec: [PoseJPL::check_if_subvariable]: the
    sub-variable whose identity is [check], or [nullptr]. *)
Definition PoseJPL_check_if_subvariable (this : ptr) (check : ptr) : M ptr :=
  do q <- PoseJPL_q this;
  do p <- PoseJPL_p this;
  if bool_decide (check = q) then ret q
  else if bool_decide (check = p) then ret p
  else ret None.

(** Modelled from the spec: [PoseJPL::quat()], the quaternion's value as a
    4-vector. *)
Definition PoseJPL_quat (this : ptr) : M MatrixXd :=
  do q <- PoseJPL_q this;
  do v <- Type_value q;
  assert (has_shape v 4 1);;
  ret v.

(** Modelled from the spec: [PoseJPL::quat_fej()], the quaternion's
    linearization value as a 4-vector. *)
Definition PoseJPL_quat_fej (this : ptr) : M MatrixXd :=
  do q <- PoseJPL_q this;
  do v <- Type_fej q;
  assert (has_shape v 4 1);;
  ret v.

(** Modelled from the spec: [PoseJPL::pos()], the position's value as a
    3-vector. *)
Definition PoseJPL_pos (this : ptr) : M MatrixXd :=
  do p <- PoseJPL_p this;
  do v <- Type_value p;
  assert (has_shape v 3 1);;
  ret v.

(** Modelled from the spec: [PoseJPL::pos_fej()], the position's
    linearization value as a 3-vector. *)
Definition PoseJPL_pos_fej (this : ptr) : M MatrixXd :=
  do p <- PoseJPL_p this;
  do v <- Type_fej p;
  assert (has_shape v 3 1);;
  ret v.

(** ** IMU.h *)

Module IMU.

(** the members [_pose], [_v], [_bg], [_ba], [_keyframe_pose] (lines
    240-252) *)
Definition _pose (this : ptr) : M ptr :=
  do o <- deref this;
  match o with OIMU _ pose _ _ _ _ => ret pose | _ => undef end.

Definition _v (this : ptr) : M ptr :=
  do o <- deref this;
  match o with OIMU _ _ v _ _ _ => ret v | _ => undef end.

Definition _bg (this : ptr) : M ptr :=
  do o <- deref this;
  match o with OIMU _ _ _ bg _ _ => ret bg | _ => undef end.

Definition _ba (this : ptr) : M ptr :=
  do o <- deref this;
  match o with OIMU _ _ _ _ ba _ => ret ba | _ => undef end.

Definition _keyframe_pose (this : ptr) : M ptr :=
  do o <- deref this;
  match o with OIMU _ _ _ _ _ kf => ret kf | _ => undef end.

(** [keyframe_pose()], [quat()], [keyframe_quat()] (lines 230, 164, 200) *)
Definition keyframe_pose (this : ptr) : M ptr := _keyframe_pose this.

Definition quat (this : ptr) : M MatrixXd :=
  do pose <- _pose this; PoseJPL_quat pose.

Definition keyframe_quat (this : ptr) : M MatrixXd :=
  do kf <- _keyframe_pose this; PoseJPL_quat kf.

(** [set_value_internal] (IMU.h, lines 258-270) *)
Definition set_value_internal (this : ptr) (new_value : MatrixXd) : M unit :=
  assert (rows new_value =? 23)%nat;;
  assert (cols new_value =? 1)%nat;;
  do pose <- _pose this;
  PoseJPL_set_value pose (block new_value 0 0 7 1);;
  do v <- _v this;
  Type_set_value v (block new_value 7 0 3 1);;
  do bg <- _bg this;
  Type_set_value bg (block new_value 10 0 3 1);;
  do ba <- _ba this;
  Type_set_value ba (block new_value 13 0 3 1);;
  do kf <- _keyframe_pose this;
  PoseJPL_set_value kf (block new_value 16 0 7 1);;
  modify_base this (fun b => with_value b new_value).

(** [set_fej_internal] (lines 276-288) *)
Definition set_fej_internal (this : ptr) (new_value : MatrixXd) : M unit :=
  assert (rows new_value =? 23)%nat;;
  assert (cols new_value =? 1)%nat;;
  do pose <- _pose this;
  PoseJPL_set_fej pose (block new_value 0 0 7 1);;
  do v <- _v this;
  Type_set_fej v (block new_value 7 0 3 1);;
  do bg <- _bg this;
  Type_set_fej bg (block new_value 10 0 3 1);;
  do ba <- _ba this;
  Type_set_fej ba (block new_value 13 0 3 1);;
  do kf <- _keyframe_pose this;
  PoseJPL_set_fej kf (block new_value 16 0 7 1);;
  modify_base this (fun b => with_fej b new_value).

(** [set_value] and [set_fej] (lines 112 and 118) *)
Definition set_value (this : ptr) (new_value : MatrixXd) : M unit :=
  set_value_internal this new_value.

Definition set_fej (this : ptr) (new_value : MatrixXd) : M unit :=
  set_fej_internal this new_value.

(** the default state value [imu0] of the constructor *)
Definition imu0 : MatrixXd :=
  set_coeff (set_coeff (Zero 23 1) 3 0 1%float) 19 0 1%float.

(** assign the five members of the object at [this] *)
Definition set_member (this : loc) (pose v bg ba kf : ptr) : M unit :=
  do o <- deref (Some this);
  store this (OIMU (base o) pose v bg ba kf).

(** [IMU()] (lines 40-55), for an object created by [new] *)
Definition new : M ptr :=
  do this <- alloc (OIMU (Type_ctor 21) None None None None None);
  do pose <- PoseJPL_new;
  set_member this pose None None None None;;
  do v <- Vec_new 3;
  set_member this pose v None None None;;
  do bg <- Vec_new 3;
  set_member this pose v bg None None;;
  do ba <- Vec_new 3;
  set_member this pose v bg ba None;;
  do kf <- PoseJPL_new;
  set_member this pose v bg ba kf;;
  set_value_internal (Some this) imu0;;
  set_fej_internal (Some this) imu0;;
  ret (Some this).

(** [set_local_id] (lines 66-73) *)
Definition set_local_id (this : ptr) (new_id : Z) : M unit :=
  modify_base this (fun b => with_id b new_id);;
  do pose <- _pose this;
  PoseJPL_set_local_id pose new_id;;
  do v <- _v this;
  do pose_id <- Type_id pose;
  do pose_size <- Type_size pose;
  Type_set_local_id v (int_add pose_id (if bool_decide (new_id <> -1) then pose_size else 0));;
  do bg <- _bg this;
  do v_id <- Type_id v;
  do v_size <- Type_size v;
  Type_set_local_id bg (int_add v_id (if bool_decide (new_id <> -1) then v_size else 0));;
  do ba <- _ba this;
  do bg_id <- Type_id bg;
  do bg_size <- Type_size bg;
  Type_set_local_id ba (int_add bg_id (if bool_decide (new_id <> -1) then bg_size else 0));;
  do kf <- _keyframe_pose this;
  do ba_id <- Type_id ba;
  do ba_size <- Type_size ba;
  PoseJPL_set_local_id kf (int_add ba_id (if bool_decide (new_id <> -1) then ba_size else 0)).

(** a [VectorXd] with the coefficients [v] *)
Definition VectorXd (v : list double) : MatrixXd := Mat (length v) 1 v.

(** [update] (lines 81-106).  The copy of the dynamically sized [_value]
    into the 23-vector [newX] carries Eigen's own size check. *)
Definition update (this : ptr) (dx : list double) : M unit :=
  let dx := VectorXd dx in
  do size <- Type_size this;
  assert (Z.of_nat (rows dx) =? size);;
  do value <- Type_value this;
  assert (has_shape value 23 1);;
  let newX := value in
  let dq := comma4 (scale 0.5 (block dx 0 0 3 1)) 1 in
  let dq := quatnorm dq in
  let d_keyframe_q := comma4 (scale 0.5 (block dx 15 0 3 1)) 1 in
  let d_keyframe_q := quatnorm d_keyframe_q in
  do q <- quat this;
  let newX := set_block newX 0 0 4 1 (quat_multiply dq q) in
  let newX := add_block newX 4 0 3 1 (block dx 3 0 3 1) in
  let newX := add_block newX 7 0 3 1 (block dx 6 0 3 1) in
  let newX := add_block newX 10 0 3 1 (block dx 9 0 3 1) in
  let newX := add_block newX 13 0 3 1 (block dx 12 0 3 1) in
  do kq <- keyframe_quat this;
  let newX := set_block newX 16 0 4 1 (quat_multiply d_keyframe_q kq) in
  let newX := add_block newX 20 0 3 1 (block dx 18 0 3 1) in
  set_value this newX.

(** [reset_keyframe_states] (lines 123-129).  [new_keyframe] is a local
    object: it is created on entry and ends with the call.  Writing into a
    block of the dynamically sized [_value] and [_fej] carries Eigen's own
    bounds check. *)
Definition reset_keyframe_states (this : ptr) : M unit :=
  do new_keyframe <- PoseJPL_new;
  do kf <- keyframe_pose this;
  do nv <- Type_value new_keyframe;
  PoseJPL_set_value kf nv;;
  do kf <- keyframe_pose this;
  do nv <- Type_value new_keyframe;
  PoseJPL_set_fej kf nv;;
  do value <- Type_value this;
  assert (block_fits value 16 0 7 1);;
  do nv <- Type_value new_keyframe;
  modify_base this (fun b => with_value b (set_block (_value b) 16 0 7 1 nv));;
  do fej <- Type_fej this;
  assert (block_fits fej 16 0 7 1);;
  do nv <- Type_value new_keyframe;
  modify_base this (fun b => with_fej b (set_block (_fej b) 16 0 7 1 nv));;
  PoseJPL_delete new_keyframe.

(** [clone] (lines 131-136) *)
Definition clone (this : ptr) : M ptr :=
  do Clone <- new;
  do value <- Type_value this;
  set_value Clone value;;
  do fej <- Type_fej this;
  set_fej Clone fej;;
  ret Clone.

(** [check_if_subvariable] (lines 138-155) *)
Definition check_if_subvariable (this : ptr) (check : ptr) : M ptr :=
  do pose <- _pose this;
  if bool_decide (check = pose) then ret pose else
  do r <- PoseJPL_check_if_subvariable pose check;
  if bool_decide (check = r) then PoseJPL_check_if_subvariable pose check else
  do v <- _v this;
  if bool_decide (check = v) then ret v else
  do bg <- _bg this;
  if bool_decide (check = bg) then ret bg else
  do ba <- _ba this;
  if bool_decide (check = ba) then ret ba else
  do kf <- _keyframe_pose this;
  if bool_decide (check = kf) then ret kf else
  do r <- PoseJPL_check_if_subvariable kf check;
  if bool_decide (check = r) then PoseJPL_check_if_subvariable kf check else
  ret None.

(** the value of a [Vec] sub-variable returned as a 3-vector: the copy of
    the dynamically sized matrix carries Eigen's own size check *)
Definition value3 (sub : ptr) : M MatrixXd :=
  do x <- Type_value sub;
  assert (has_shape x 3 1);;
  ret x.

Definition fej3 (sub : ptr) : M MatrixXd :=
  do x <- Type_fej sub;
  assert (has_shape x 3 1);;
  ret x.

(** [quat_fej()], [pos()], [pos_fej()] (lines 167-173) *)
Definition quat_fej (this : ptr) : M MatrixXd :=
  do pose <- _pose this; PoseJPL_quat_fej pose.

Definition pos (this : ptr) : M MatrixXd :=
  do pose <- _pose this; PoseJPL_pos pose.

Definition pos_fej (this : ptr) : M MatrixXd :=
  do pose <- _pose this; PoseJPL_pos_fej pose.

(** [vel()], [vel_fej()], [bias_g()], [bias_g_fej()], [bias_a()],
    [bias_a_fej()] (lines 176-191) *)
Definition vel (this : ptr) : M MatrixXd :=
  do v <- _v this; value3 v.

Definition vel_fej (this : ptr) : M MatrixXd :=
  do v <- _v this; fej3 v.

Definition bias_g (this : ptr) : M MatrixXd :=
  do bg <- _bg this; value3 bg.

Definition bias_g_fej (this : ptr) : M MatrixXd :=
  do bg <- _bg this; fej3 bg.

Definition bias_a (this : ptr) : M MatrixXd :=
  do ba <- _ba this; value3 ba.

Definition bias_a_fej (this : ptr) : M MatrixXd :=
  do ba <- _ba this; fej3 ba.

(** [keyframe_quat_fej()], [keyframe_pos()], [keyframe_pos_fej()] (lines
    203-209) *)
Definition keyframe_quat_fej (this : ptr) : M MatrixXd :=
  do kf <- _keyframe_pose this; PoseJPL_quat_fej kf.

Definition keyframe_pos (this : ptr) : M MatrixXd :=
  do kf <- _keyframe_pose this; PoseJPL_pos kf.

Definition keyframe_pos_fej (this : ptr) : M MatrixXd :=
  do kf <- _keyframe_pose this; PoseJPL_pos_fej kf.

(** the sub-variable handles [pose()], [q()], [p()], [v()], [bg()], [ba()],
    [keyframe_q()], [keyframe_p()] (lines 212-236); [keyframe_pose()] is
    above *)
Definition pose (this : ptr) : M ptr := _pose this.

Definition q (this : ptr) : M ptr :=
  do pose <- _pose this; PoseJPL_q pose.

Definition p (this : ptr) : M ptr :=
  do pose <- _pose this; PoseJPL_p pose.

Definition v (this : ptr) : M ptr := _v this.

Definition bg (this : ptr) : M ptr := _bg this.

Definition ba (this : ptr) : M ptr := _ba this.

Definition keyframe_q (this : ptr) : M ptr :=
  do kf <- _keyframe_pose this; PoseJPL_q kf.

Definition keyframe_p (this : ptr) : M ptr :=
  do kf <- _keyframe_pose this; PoseJPL_p kf.

End IMU.

(** ** The state of an IMU variable

    What the store holds of one IMU variable: the [Type] members of the ten
    objects it is made of, and the addresses of the nine it points to. *)

Record PoseJPL_view := PoseView {
  pose_b : Type_;
  q_loc : loc; q_b : Type_;
  p_loc : loc; p_b : Type_ }.

Record IMU_view := IMUView {
  imu_b : Type_;
  pose_loc : loc; pose_v : PoseJPL_view;
  v_loc : loc; v_b : Type_;
  bg_loc : loc; bg_b : Type_;
  ba_loc : loc; ba_b : Type_;
  kf_loc : loc; kf_v : PoseJPL_view }.

Definition read_Vec (h : heap) (a : loc) : option Type_ :=
  match objs h !! a with Some (OVec b) => Some b | _ => None end.

Definition read_JPLQuat (h : heap) (a : loc) : option Type_ :=
  match objs h !! a with Some (OJPLQuat b) => Some b | _ => None end.

Definition read_PoseJPL (h : heap) (a : loc) : option PoseJPL_view :=
  match objs h !! a with
  | Some (OPoseJPL b (Some q) (Some p)) =>
      match read_JPLQuat h q, read_Vec h p with
      | Some qb, Some pb => Some (PoseView b q qb p pb)
      | _, _ => None
      end
  | _ => None
  end.

Definition read_IMU (h : heap) (a : loc) : option IMU_view :=
  match objs h !! a with
  | Some (OIMU b (Some pose) (Some v) (Some bg) (Some ba) (Some kf)) =>
      match read_PoseJPL h pose, read_Vec h v, read_Vec h bg, read_Vec h ba,
            read_PoseJPL h kf with
      | Some pv, Some vb, Some bgb, Some bab, Some kv =>
          Some (IMUView b pose pv v vb bg bgb ba bab kf kv)
      | _, _, _, _, _ => None
      end
  | _ => None
  end.

(** the addresses of the ten objects, the IMU's own first *)
Definition IMU_locs (a : loc) (s : IMU_view) : list loc :=
  [a; pose_loc s; q_loc (pose_v s); p_loc (pose_v s); v_loc s; bg_loc s; ba_loc s;
   kf_loc s; q_loc (kf_v s); p_loc (kf_v s)].

(** value and linearization value are [n] x 1, the error dimension is [sz] *)
Definition shaped (b : Type_) (n : nat) (sz : Z) : bool :=
  has_shape (_value b) n 1 && has_shape (_fej b) n 1 && (_size b =? sz).

Definition pose_shaped (v : PoseJPL_view) : bool :=
  shaped (pose_b v) 7 6 && shaped (q_b v) 4 3 && shaped (p_b v) 3 3.

(** the dimensions of the nine sub-variables, and of the whole *)
Definition subs_shaped (s : IMU_view) : bool :=
  pose_shaped (pose_v s) && shaped (v_b s) 3 3 && shaped (bg_b s) 3 3
  && shaped (ba_b s) 3 3 && pose_shaped (kf_v s).

Definition IMU_shaped (s : IMU_view) : bool :=
  shaped (imu_b s) 23 21 && subs_shaped s.

(** [IMU_state h a s]: the store [h] holds at [a] an IMU variable in the
    state [s], made of ten distinct objects that were all allocated, with
    the dimensions the constructors give them. *)
Record IMU_state (h : heap) (a : loc) (s : IMU_view) : Prop := {
  st_read : read_IMU h a = Some s;
  st_nodup : NoDup (IMU_locs a s);
  st_alloc : Forall (fun x => (x < next h)%positive) (IMU_locs a s);
  st_shaped : IMU_shaped s = true }.

(** ** What the operations do to a state

    Each operation of the class is mirrored by a function on states; the
    lemmas of the next part show that running the operation on a store
    changes the state it holds in exactly that way. *)

Definition pose_set_value (v : PoseJPL_view) (m : MatrixXd) : PoseJPL_view :=
  PoseView (with_value (pose_b v) m)
    (q_loc v) (with_value (q_b v) (block m 0 0 4 1))
    (p_loc v) (with_value (p_b v) (block m 4 0 3 1)).

Definition pose_set_fej (v : PoseJPL_view) (m : MatrixXd) : PoseJPL_view :=
  PoseView (with_fej (pose_b v) m)
    (q_loc v) (with_fej (q_b v) (block m 0 0 4 1))
    (p_loc v) (with_fej (p_b v) (block m 4 0 3 1)).

Definition pose_set_local_id (v : PoseJPL_view) (i : Z) : PoseJPL_view :=
  PoseView (with_id (pose_b v) i)
    (q_loc v) (with_id (q_b v) i)
    (p_loc v) (with_id (p_b v) i).

Definition view_set_value (s : IMU_view) (m : MatrixXd) : IMU_view :=
  IMUView (with_value (imu_b s) m)
    (pose_loc s) (pose_set_value (pose_v s) (block m 0 0 7 1))
    (v_loc s) (with_value (v_b s) (block m 7 0 3 1))
    (bg_loc s) (with_value (bg_b s) (block m 10 0 3 1))
    (ba_loc s) (with_value (ba_b s) (block m 13 0 3 1))
    (kf_loc s) (pose_set_value (kf_v s) (block m 16 0 7 1)).

Definition view_set_fej (s : IMU_view) (m : MatrixXd) : IMU_view :=
  IMUView (with_fej (imu_b s) m)
    (pose_loc s) (pose_set_fej (pose_v s) (block m 0 0 7 1))
    (v_loc s) (with_fej (v_b s) (block m 7 0 3 1))
    (bg_loc s) (with_fej (bg_b s) (block m 10 0 3 1))
    (ba_loc s) (with_fej (ba_b s) (block m 13 0 3 1))
    (kf_loc s) (pose_set_fej (kf_v s) (block m 16 0 7 1)).

(** the vector [newX] that [update] hands to [set_value], from the flat
    value [X], the two quaternions read through the sub-variables and the
    correction [dx] *)
Definition update_value (X q kq : MatrixXd) (dx : list double) : MatrixXd :=
  let dx := IMU.VectorXd dx in
  let dq := quatnorm (comma4 (scale 0.5 (block dx 0 0 3 1)) 1) in
  let d_keyframe_q := quatnorm (comma4 (scale 0.5 (block dx 15 0 3 1)) 1) in
  let newX := set_block X 0 0 4 1 (quat_multiply dq q) in
  let newX := add_block newX 4 0 3 1 (block dx 3 0 3 1) in
  let newX := add_block newX 7 0 3 1 (block dx 6 0 3 1) in
  let newX := add_block newX 10 0 3 1 (block dx 9 0 3 1) in
  let newX := add_block newX 13 0 3 1 (block dx 12 0 3 1) in
  let newX := set_block newX 16 0 4 1 (quat_multiply d_keyframe_q kq) in
  add_block newX 20 0 3 1 (block dx 18 0 3 1).

Definition view_update (s : IMU_view) (dx : list double) : IMU_view :=
  view_set_value s
    (update_value (_value (imu_b s)) (_value (q_b (pose_v s))) (_value (q_b (kf_v s))) dx).

(** the index a sub-variable receives from the one before it *)
Definition next_id (new_id prev_id prev_size : Z) : Z :=
  int_add prev_id (if bool_decide (new_id <> -1) then prev_size else 0).

Definition view_set_local_id (s : IMU_view) (i : Z) : IMU_view :=
  let pose_id := i in
  let v_id := next_id i pose_id (_size (pose_b (pose_v s))) in
  let bg_id := next_id i v_id (_size (v_b s)) in
  let ba_id := next_id i bg_id (_size (bg_b s)) in
  let kf_id := next_id i ba_id (_size (ba_b s)) in
  IMUView (with_id (imu_b s) i)
    (pose_loc s) (pose_set_local_id (pose_v s) pose_id)
    (v_loc s) (with_id (v_b s) v_id)
    (bg_loc s) (with_id (bg_b s) bg_id)
    (ba_loc s) (with_id (ba_b s) ba_id)
    (kf_loc s) (pose_set_local_id (kf_v s) kf_id).

Definition view_reset_keyframe_states (s : IMU_view) : IMU_view :=
  IMUView
    (with_fej (with_value (imu_b s) (set_block (_value (imu_b s)) 16 0 7 1 pose0))
       (set_block (_fej (imu_b s)) 16 0 7 1 pose0))
    (pose_loc s) (pose_v s) (v_loc s) (v_b s) (bg_loc s) (bg_b s) (ba_loc s) (ba_b s)
    (kf_loc s) (pose_set_fej (pose_set_value (kf_v s) pose0) pose0).

(** the [k]-th address after [n] *)
Definition off (n : loc) (k : nat) : loc := Nat.iter k Pos.succ n.

(** the state of a pose built by [PoseJPL()] at the address [n]; its
    sub-variables follow at the next two addresses *)
Definition vec3 : Type_ := mkType (Zero 3 1) (Zero 3 1) (-1) 3.

Definition default_pose (n : loc) : PoseJPL_view :=
  pose_set_fej
    (pose_set_value
       (PoseView (Type_ctor 6) (off n 1) (mkType q0 q0 (-1) 3) (off n 2) vec3)
       pose0)
    pose0.

(** the state of a variable built by [IMU()] at the address [n]; the nine
    objects it owns follow in the order of their creation *)
Definition default_view (n : loc) : IMU_view :=
  view_set_fej
    (view_set_value
       (IMUView (Type_ctor 21)
          (off n 1) (default_pose (off n 1))
          (off n 4) vec3 (off n 5) vec3 (off n 6) vec3
          (off n 7) (default_pose (off n 7)))
       IMU.imu0)
    IMU.imu0.

(** the state of the copy [clone] builds at the address [n] from a variable
    in the state [s] *)
Definition view_clone (n : loc) (s : IMU_view) : IMU_view :=
  view_set_fej (view_set_value (default_view n) (_value (imu_b s))) (_fej (imu_b s)).

(** the sub-variables in the order [check_if_subvariable] looks at them *)
Definition subvariables (s : IMU_view) : list loc :=
  [pose_loc s; q_loc (pose_v s); p_loc (pose_v s); v_loc s; bg_loc s; ba_loc s;
   kf_loc s; q_loc (kf_v s); p_loc (kf_v s)].

(** the first entry of [order] whose identity is [check], or [nullptr] *)
Definition find_first (order : list loc) (check : ptr) : ptr :=
  head (filter (fun x => Some x = check) order).

(** ** The invariants of the claims *)

(** every sub-variable's value is the matching range of the flat value *)
Definition consistent_value (s : IMU_view) : Prop :=
  let X := _value (imu_b s) in
  _value (pose_b (pose_v s)) = block X 0 0 7 1 /\
  _value (q_b (pose_v s)) = block X 0 0 4 1 /\
  _value (p_b (pose_v s)) = block X 4 0 3 1 /\
  _value (v_b s) = block X 7 0 3 1 /\
  _value (bg_b s) = block X 10 0 3 1 /\
  _value (ba_b s) = block X 13 0 3 1 /\
  _value (pose_b (kf_v s)) = block X 16 0 7 1 /\
  _value (q_b (kf_v s)) = block X 16 0 4 1 /\
  _value (p_b (kf_v s)) = block X 20 0 3 1.

(** the same for the linearization value *)
Definition consistent_fej (s : IMU_view) : Prop :=
  let X := _fej (imu_b s) in
  _fej (pose_b (pose_v s)) = block X 0 0 7 1 /\
  _fej (q_b (pose_v s)) = block X 0 0 4 1 /\
  _fej (p_b (pose_v s)) = block X 4 0 3 1 /\
  _fej (v_b s) = block X 7 0 3 1 /\
  _fej (bg_b s) = block X 10 0 3 1 /\
  _fej (ba_b s) = block X 13 0 3 1 /\
  _fej (pose_b (kf_v s)) = block X 16 0 7 1 /\
  _fej (q_b (kf_v s)) = block X 16 0 4 1 /\
  _fej (p_b (kf_v s)) = block X 20 0 3 1.

Definition consistent (s : IMU_view) : Prop := consistent_value s /\ consistent_fej s.

(** the ten linearization values of a state, and its ten indices *)
Definition fejs (s : IMU_view) : list MatrixXd :=
  [_fej (imu_b s); _fej (pose_b (pose_v s)); _fej (q_b (pose_v s)); _fej (p_b (pose_v s));
   _fej (v_b s); _fej (bg_b s); _fej (ba_b s);
   _fej (pose_b (kf_v s)); _fej (q_b (kf_v s)); _fej (p_b (kf_v s))].

Definition ids (s : IMU_view) : list Z :=
  [_id (imu_b s); _id (pose_b (pose_v s)); _id (q_b (pose_v s)); _id (p_b (pose_v s));
   _id (v_b s); _id (bg_b s); _id (ba_b s);
   _id (pose_b (kf_v s)); _id (q_b (kf_v s)); _id (p_b (kf_v s))].

(** ** Sequences of calls *)

(** the operations that change the value or the linearization value *)
Inductive call :=
| call_set_value (v : MatrixXd)
| call_set_fej (v : MatrixXd)
| call_update (dx : list double)
| call_reset_keyframe_states.

Definition exec (this : ptr) (c : call) : M unit :=
  match c with
  | call_set_value v => IMU.set_value this v
  | call_set_fej v => IMU.set_fej this v
  | call_update dx => IMU.update this dx
  | call_reset_keyframe_states => IMU.reset_keyframe_states this
  end.

Fixpoint exec_all (this : ptr) (cs : list call) : M unit :=
  match cs with
  | [] => ret tt
  | c :: cs' => exec this c;; exec_all this cs'
  end.

(** a call whose argument has the dimension the operation asks for *)
Definition valid_call (c : call) : bool :=
  match c with
  | call_set_value v | call_set_fej v => has_shape v 23 1
  | call_update dx => (length dx =? 21)%nat
  | call_reset_keyframe_states => true
  end.

Definition view_exec (s : IMU_view) (c : call) : IMU_view :=
  match c with
  | call_set_value v => view_set_value s v
  | call_set_fej v => view_set_fej s v
  | call_update dx => view_update s dx
  | call_reset_keyframe_states => view_reset_keyframe_states s
  end.

(** ** Concrete stores *)

(** the store after [new IMU()] in the empty store: the variable is at
    address 1 *)
Definition h0 : heap :=
  match IMU.new empty_heap with Ok _ h => h | _ => empty_heap end.

Definition s0 : IMU_view := default_view 1.

(** a value whose keyframe orientation is [0.5, 0.5, 0.5, 0.5] and whose
    keyframe position is [1, 2, 3] *)
Definition v_kf : MatrixXd :=
  Mat 23 1 [0; 0; 0; 1; 0; 0; 0; 0; 0; 0; 0; 0; 0; 0; 0; 0;
            0.5; 0.5; 0.5; 0.5; 1; 2; 3]%float.

Definition h_kf : heap :=
  match (IMU.set_value (Some 1%positive) v_kf;; IMU.set_fej (Some 1%positive) v_kf) h0 with
  | Ok _ h => h
  | _ => h0
  end.

Definition s_kf : IMU_view := view_set_fej (view_set_value s0 v_kf) v_kf.

(** a correction that turns, moves and changes every part *)
Definition dx1 : list double :=
  [0; 0; 0.0078125; 1; 2; 3; 0.5; 0.5; 0.5; 0.25; 0.25; 0.25; 0.125; 0.125; 0.125;
   0.015625; 0; 0; 4; 5; 6]%float.

(** a sequence with one call of each kind *)
Definition calls1 : list call :=
  [call_update dx1; call_set_value v_kf; call_reset_keyframe_states; call_set_fej v_kf].

(** ** More of the class: accessors and handles *)

(** the ten values of a state, in the order of [fejs] and [ids] *)
Definition values (s : IMU_view) : list MatrixXd :=
  [_value (imu_b s); _value (pose_b (pose_v s)); _value (q_b (pose_v s));
   _value (p_b (pose_v s)); _value (v_b s); _value (bg_b s); _value (ba_b s);
   _value (pose_b (kf_v s)); _value (q_b (kf_v s)); _value (p_b (kf_v s))].

(** the accessors of the current estimate, and of the first estimate, in
    the order quaternion, position, velocity, gyro bias, accelerometer bias,
    keyframe quaternion, keyframe position *)
Definition value_accessors : list (ptr -> M MatrixXd) :=
  [IMU.quat; IMU.pos; IMU.vel; IMU.bias_g; IMU.bias_a; IMU.keyframe_quat;
   IMU.keyframe_pos].

Definition fej_accessors : list (ptr -> M MatrixXd) :=
  [IMU.quat_fej; IMU.pos_fej; IMU.vel_fej; IMU.bias_g_fej; IMU.bias_a_fej;
   IMU.keyframe_quat_fej; IMU.keyframe_pos_fej].

(** the ranges of a 23-vector those accessors stand for *)
Definition ranges (X : MatrixXd) : list MatrixXd :=
  [block X 0 0 4 1; block X 4 0 3 1; block X 7 0 3 1; block X 10 0 3 1;
   block X 13 0 3 1; block X 16 0 4 1; block X 20 0 3 1].

(** the handles in the order [check_if_subvariable] looks at the
    sub-variables *)
Definition handles : list (ptr -> M ptr) :=
  [IMU.pose; IMU.q; IMU.p; IMU.v; IMU.bg; IMU.ba; IMU.keyframe_pose;
   IMU.keyframe_q; IMU.keyframe_p].

(** the state after a value [w] was written through the handle [v()] *)
Definition view_write_v (s : IMU_view) (w : MatrixXd) : IMU_view :=
  IMUView (imu_b s) (pose_loc s) (pose_v s)
    (v_loc s) (with_value (v_b s) w)
    (bg_loc s) (bg_b s) (ba_loc s) (ba_b s) (kf_loc s) (kf_v s).

(** a velocity to write through the handle *)
Definition w1 : MatrixXd := Mat 3 1 [7; 8; 9]%float.

(** the values and the linearization values the accessors return, in their
    order *)
Definition leaf_values (s : IMU_view) : list MatrixXd :=
  [_value (q_b (pose_v s)); _value (p_b (pose_v s)); _value (v_b s); _value (bg_b s);
   _value (ba_b s); _value (q_b (kf_v s)); _value (p_b (kf_v s))].

Definition leaf_fejs (s : IMU_view) : list MatrixXd :=
  [_fej (q_b (pose_v s)); _fej (p_b (pose_v s)); _fej (v_b s); _fej (bg_b s);
   _fej (ba_b s); _fej (q_b (kf_v s)); _fej (p_b (kf_v s))].

(** the store and the state after [w1] was written through [v()] into the
    variable of [h_kf] *)
Definition h_w : heap :=
  match (do vp <- IMU.v (Some 1%positive); Type_set_value vp w1) h_kf with
  | Ok _ h => h
  | _ => h_kf
  end.

Definition s_w : IMU_view := view_write_v s_kf w1.

(** the store after [clone()] of the variable of [h_kf]: the copy is at
    address 11 *)
Definition h_two : heap :=
  match IMU.clone (Some 1%positive) h_kf with Ok _ h => h | _ => h_kf end.

Definition s_two : IMU_view := view_clone 11 s_kf.

(** a value in which no range is zero: the orientation is the half turn
    about the first axis, which does not commute with the corrections of
    [dx_rot] *)
Definition v_rot : MatrixXd :=
  Mat 23 1 [1; 0; 0; 0; 10; 20; 30; 1; 1; 1; 2; 2; 2; 3; 3; 3;
            0.5; 0.5; 0.5; 0.5; 1; 2; 3]%float.

Definition h_rot : heap :=
  match IMU.set_value (Some 1%positive) v_rot h0 with Ok _ h => h | _ => h0 end.

Definition s_rot : IMU_view := view_set_value s0 v_rot.

(** a correction whose two rotation parts differ and normalise to
    quaternions with coefficients [0.5] and [-0.5] *)
Definition dx_rot : list double :=
  [2; 2; 2; 1; 2; 3; 0.5; 0.5; 0.5; 0.25; 0.25; 0.25; 0.125; 0.125; 0.125;
   2; -2; 2; 4; 5; 6]%float.

(** * Proofs *)

(** ** Reading a state out of the store *)

Arguments block : simpl never.
Arguments set_block : simpl never.
Arguments add_block : simpl never.
Arguments generate : simpl never.
Arguments update_value : simpl never.
Arguments int_add : simpl never.
Arguments quatnorm : simpl never.
Arguments quat_multiply : simpl never.
Arguments scale : simpl never.
Arguments comma4 : simpl never.
Arguments mat_add : simpl never.
Arguments set_coeff : simpl never.
Arguments Zero : simpl never.
Arguments next_id : simpl never.

Lemma rows_block m i j p q : rows (block m i j p q) = p.
Proof. reflexivity. Qed.

Lemma cols_block m i j p q : cols (block m i j p q) = q.
Proof. reflexivity. Qed.

Lemma rows_set_block m i j p q b : rows (set_block m i j p q b) = rows m.
Proof. reflexivity. Qed.

Lemma cols_set_block m i j p q b : cols (set_block m i j p q b) = cols m.
Proof. reflexivity. Qed.

Lemma rows_add_block m i j p q b : rows (add_block m i j p q b) = rows m.
Proof. unfold add_block. apply rows_set_block. Qed.

Lemma cols_add_block m i j p q b : cols (add_block m i j p q b) = cols m.
Proof. unfold add_block. apply cols_set_block. Qed.

Lemma rows_update_value X q kq dx : rows (update_value X q kq dx) = rows X.
Proof.
  unfold update_value. cbv zeta.
  now rewrite !rows_add_block, rows_set_block, !rows_add_block, rows_set_block.
Qed.

Lemma cols_update_value X q kq dx : cols (update_value X q kq dx) = cols X.
Proof.
  unfold update_value. cbv zeta.
  now rewrite !cols_add_block, cols_set_block, !cols_add_block, cols_set_block.
Qed.

Create Rewrite HintDb shape.
#[export] Hint Rewrite rows_block cols_block rows_set_block cols_set_block
  rows_add_block cols_add_block rows_update_value cols_update_value : shape.

Lemma shaped_inv b n sz :
  shaped b n sz = true ->
  rows (_value b) = n /\ cols (_value b) = 1%nat /\
  rows (_fej b) = n /\ cols (_fej b) = 1%nat /\ _size b = sz.
Proof.
  unfold shaped, has_shape.
  rewrite !andb_true_iff, !Nat.eqb_eq, Z.eqb_eq. tauto.
Qed.

Lemma read_IMU_inv h a s :
  read_IMU h a = Some s ->
  objs h !! a = Some (OIMU (imu_b s) (Some (pose_loc s)) (Some (v_loc s))
                        (Some (bg_loc s)) (Some (ba_loc s)) (Some (kf_loc s))) /\
  objs h !! pose_loc s
    = Some (OPoseJPL (pose_b (pose_v s)) (Some (q_loc (pose_v s))) (Some (p_loc (pose_v s)))) /\
  objs h !! q_loc (pose_v s) = Some (OJPLQuat (q_b (pose_v s))) /\
  objs h !! p_loc (pose_v s) = Some (OVec (p_b (pose_v s))) /\
  objs h !! v_loc s = Some (OVec (v_b s)) /\
  objs h !! bg_loc s = Some (OVec (bg_b s)) /\
  objs h !! ba_loc s = Some (OVec (ba_b s)) /\
  objs h !! kf_loc s
    = Some (OPoseJPL (pose_b (kf_v s)) (Some (q_loc (kf_v s))) (Some (p_loc (kf_v s)))) /\
  objs h !! q_loc (kf_v s) = Some (OJPLQuat (q_b (kf_v s))) /\
  objs h !! p_loc (kf_v s) = Some (OVec (p_b (kf_v s))).
Proof.
  unfold read_IMU, read_PoseJPL, read_Vec, read_JPLQuat.
  intros H.
  destruct (objs h !! a) as [[| | |b [pose|] [v|] [bg|] [ba|] [kf|]]|] eqn:Ea;
    try discriminate.
  destruct (objs h !! pose) as [[| |pb [q|] [p|]|]|] eqn:Epose; try discriminate.
  destruct (objs h !! q) as [[|qb| |]|] eqn:Eq; try discriminate.
  destruct (objs h !! p) as [[pb'| | |]|] eqn:Ep; try discriminate.
  destruct (objs h !! v) as [[vb| | |]|] eqn:Ev; try discriminate.
  destruct (objs h !! bg) as [[bgb| | |]|] eqn:Ebg; try discriminate.
  destruct (objs h !! ba) as [[bab| | |]|] eqn:Eba; try discriminate.
  destruct (objs h !! kf) as [[| |kb [kq|] [kp|]|]|] eqn:Ekf; try discriminate.
  destruct (objs h !! kq) as [[|kqb| |]|] eqn:Ekq; try discriminate.
  destruct (objs h !! kp) as [[kpb| | |]|] eqn:Ekp; try discriminate.
  injection H as <-. simpl. repeat split; assumption.
Qed.

(** a state read from a store is read again from any store that agrees with
    it on the ten objects *)
Lemma read_IMU_agree h h' a s :
  read_IMU h a = Some s ->
  (forall x, x ∈ IMU_locs a s -> objs h' !! x = objs h !! x) ->
  read_IMU h' a = Some s.
Proof.
  intros Hr Hag. apply read_IMU_inv in Hr. destruct_and!.
  unfold IMU_locs in Hag.
  unfold read_IMU, read_PoseJPL, read_Vec, read_JPLQuat.
  repeat match goal with
         | H : objs h !! ?x = Some _ |- _ =>
             rewrite <- (Hag x) in H by (rewrite !elem_of_cons; tauto)
         end.
  repeat match goal with
         | H : objs h' !! ?x = _ |- context [objs h' !! ?x] => rewrite H
         end.
  destruct s as [b pose [pb q qb p pb'] v vb bg bgb ba bab kf [kb kq kqb kp kpb]].
  reflexivity.
Qed.

(** ** Symbolic execution *)

(** the disequalities of a duplicate-free list of addresses *)
Ltac nodup_facts H :=
  repeat (apply NoDup_cons in H as [? H]);
  repeat match goal with
         | Hn : _ ∉ _ :: _ |- _ => apply not_elem_of_cons in Hn as [? Hn]
         end.

(** two addresses differ by their order; the disequalities at hand are of
    no use for that *)
Ltac addr_lia :=
  repeat match goal with H : _ <> _ |- _ => clear H end; simpl; lia.

Ltac addr_ne := congruence || addr_lia.

(** run the reads, writes and assertions of the goal against the facts at
    hand *)
Ltac heap_simp :=
  repeat first
    [ rewrite lookup_insert_eq
    | rewrite lookup_insert_ne by addr_ne
    | rewrite lookup_delete_ne by addr_ne
    | match goal with
      | H : objs ?h !! ?x = _ |- context [objs ?h !! ?x] => rewrite H
      | H : rows ?m = _ |- context [rows ?m] => rewrite H
      | H : cols ?m = _ |- context [cols ?m] => rewrite H
      | H : _size ?b = _ |- context [_size ?b] => rewrite H
      | H : length ?l = _ |- context [length ?l] => rewrite H
      end
    | progress autorewrite with shape
    | progress simpl ].

(** unfold a state hypothesis into the ten lookups, the disequalities of the
    addresses and the dimensions *)
Ltac open_shapes :=
  repeat match goal with
         | H : IMU_shaped _ = true |- _ =>
             unfold IMU_shaped in H; apply andb_true_iff in H; destruct H
         | H : subs_shaped _ = true |- _ =>
             unfold subs_shaped, pose_shaped in H; rewrite !andb_true_iff in H;
             destruct_and!
         | H : shaped _ _ _ = true |- _ => apply shaped_inv in H; destruct_and!
         end.

Ltac open_view s :=
  destruct s as [?b ?pose [?pb ?q ?qb ?p ?pb'] ?v ?vb ?bg ?bgb ?ba ?bab ?kf [?kb ?kq ?kqb ?kp ?kpb]];
  simpl in *.

Ltac unfold_ops :=
  unfold IMU.set_value, IMU.set_fej, IMU.set_value_internal, IMU.set_fej_internal,
    IMU.set_local_id, IMU.quat, IMU.keyframe_quat, IMU.keyframe_pose,
    PoseJPL_set_value, PoseJPL_set_fej,
    PoseJPL_set_value_internal, PoseJPL_set_fej_internal, PoseJPL_set_local_id,
    PoseJPL_check_if_subvariable, PoseJPL_quat, PoseJPL_delete,
    JPLQuat_set_value, JPLQuat_set_fej, Type_set_value, Type_set_fej,
    Type_set_local_id, Type_id, Type_size, Type_value, Type_fej, modify_base,
    IMU._pose, IMU._v, IMU._bg, IMU._ba, IMU._keyframe_pose, IMU.set_member,
    PoseJPL_q, PoseJPL_p, JPLQuat_new, Vec_new,
    bind, assert, deref, store, alloc, free, ret, undef.

Ltac unfold_reads := unfold read_IMU, read_PoseJPL, read_Vec, read_JPLQuat.

(** ** The operations on a state *)

Lemma set_value_spec h a s m :
  read_IMU h a = Some s -> NoDup (IMU_locs a s) -> subs_shaped s = true ->
  rows m = 23%nat -> cols m = 1%nat ->
  exists h', IMU.set_value (Some a) m h = Ok tt h' /\
    next h' = next h /\
    read_IMU h' a = Some (view_set_value s m) /\
    (forall x, x ∉ IMU_locs a s -> objs h' !! x = objs h !! x).
Proof.
  intros Hr Hnd Hsh Hrows Hcols.
  apply read_IMU_inv in Hr. destruct_and!.
  unfold IMU_locs in *. nodup_facts Hnd. open_shapes. open_view s.
  eexists. split; [unfold_ops; heap_simp; reflexivity|].
  split; [reflexivity|]. split; [unfold_reads; heap_simp; reflexivity|].
  intros x Hx. rewrite !not_elem_of_cons in Hx. destruct_and!.
  simpl. rewrite !lookup_insert_ne by congruence. reflexivity.
Qed.

Lemma set_fej_spec h a s m :
  read_IMU h a = Some s -> NoDup (IMU_locs a s) -> subs_shaped s = true ->
  rows m = 23%nat -> cols m = 1%nat ->
  exists h', IMU.set_fej (Some a) m h = Ok tt h' /\
    next h' = next h /\
    read_IMU h' a = Some (view_set_fej s m) /\
    (forall x, x ∉ IMU_locs a s -> objs h' !! x = objs h !! x).
Proof.
  intros Hr Hnd Hsh Hrows Hcols.
  apply read_IMU_inv in Hr. destruct_and!.
  unfold IMU_locs in *. nodup_facts Hnd. open_shapes. open_view s.
  eexists. split; [unfold_ops; heap_simp; reflexivity|].
  split; [reflexivity|]. split; [unfold_reads; heap_simp; reflexivity|].
  intros x Hx. rewrite !not_elem_of_cons in Hx. destruct_and!.
  simpl. rewrite !lookup_insert_ne by congruence. reflexivity.
Qed.

Lemma set_local_id_spec h a s i :
  read_IMU h a = Some s -> NoDup (IMU_locs a s) ->
  exists h', IMU.set_local_id (Some a) i h = Ok tt h' /\
    next h' = next h /\
    read_IMU h' a = Some (view_set_local_id s i) /\
    (forall x, x ∉ IMU_locs a s -> objs h' !! x = objs h !! x).
Proof.
  intros Hr Hnd.
  apply read_IMU_inv in Hr. destruct_and!.
  unfold IMU_locs in *. nodup_facts Hnd. open_view s.
  eexists. split.
  { unfold_ops. heap_simp. reflexivity. }
  split; [reflexivity|]. split.
  { unfold_reads. heap_simp. unfold view_set_local_id, pose_set_local_id, next_id.
    simpl. reflexivity. }
  intros x Hx. rewrite !not_elem_of_cons in Hx. destruct_and!.
  simpl. rewrite !lookup_insert_ne by congruence. reflexivity.
Qed.

Lemma update_spec h a s dx :
  read_IMU h a = Some s -> NoDup (IMU_locs a s) -> IMU_shaped s = true ->
  length dx = 21%nat ->
  exists h', IMU.update (Some a) dx h = Ok tt h' /\
    next h' = next h /\
    read_IMU h' a = Some (view_update s dx) /\
    (forall x, x ∉ IMU_locs a s -> objs h' !! x = objs h !! x).
Proof.
  intros Hr Hnd Hsh Hlen.
  assert (Hsub : subs_shaped s = true)
    by (unfold IMU_shaped in Hsh; apply andb_true_iff in Hsh; tauto).
  assert (HX : rows (_value (imu_b s)) = 23%nat /\ cols (_value (imu_b s)) = 1%nat).
  { unfold IMU_shaped in Hsh. apply andb_true_iff in Hsh as [Hb _].
    apply shaped_inv in Hb. tauto. }
  destruct HX as [HXr HXc].
  destruct (set_value_spec h a s
              (update_value (_value (imu_b s)) (_value (q_b (pose_v s)))
                 (_value (q_b (kf_v s))) dx) Hr Hnd Hsub)
    as (h' & Hrun & Hnext & Hread & Hframe).
  { now rewrite rows_update_value. }
  { now rewrite cols_update_value. }
  exists h'. split; [|auto].
  apply read_IMU_inv in Hr. destruct_and!. open_shapes. open_view s.
  unfold IMU.update, IMU.quat, IMU.keyframe_quat, PoseJPL_quat, Type_size, Type_value,
    IMU._pose, IMU._keyframe_pose, PoseJPL_q, has_shape, bind, assert, deref, ret.
  heap_simp. exact Hrun.
Qed.

Lemma read_PoseJPL_inv h a v :
  read_PoseJPL h a = Some v ->
  objs h !! a = Some (OPoseJPL (pose_b v) (Some (q_loc v)) (Some (p_loc v))) /\
  objs h !! q_loc v = Some (OJPLQuat (q_b v)) /\
  objs h !! p_loc v = Some (OVec (p_b v)).
Proof.
  unfold read_PoseJPL, read_Vec, read_JPLQuat. intros H.
  destruct (objs h !! a) as [[| |pb [q|] [p|]|]|] eqn:Ea; try discriminate.
  destruct (objs h !! q) as [[|qb| |]|] eqn:Eq; try discriminate.
  destruct (objs h !! p) as [[pb'| | |]|] eqn:Ep; try discriminate.
  injection H as <-. simpl. repeat split; assumption.
Qed.

Lemma PoseJPL_new_spec h :
  exists h', PoseJPL_new h = Ok (Some (next h)) h' /\
    next h' = off (next h) 3 /\
    read_PoseJPL h' (next h) = Some (default_pose (next h)) /\
    (forall x, (x < next h)%positive -> objs h' !! x = objs h !! x).
Proof.
  eexists. split.
  { unfold PoseJPL_new. unfold_ops. heap_simp. reflexivity. }
  split; [reflexivity|]. split.
  { unfold_reads. heap_simp. reflexivity. }
  intros x Hx. simpl. rewrite !lookup_insert_ne by lia. reflexivity.
Qed.

Arguments IMU.set_value_internal : simpl never.
Arguments IMU.set_fej_internal : simpl never.
Arguments PoseJPL_new : simpl never.

Lemma new_spec h :
  exists h', IMU.new h = Ok (Some (next h)) h' /\
    next h' = off (next h) 10 /\
    read_IMU h' (next h) = Some (default_view (next h)) /\
    (forall x, (x < next h)%positive -> objs h' !! x = objs h !! x).
Proof.
  set (n := next h).
  unfold IMU.new, bind at 1, alloc at 1. fold n.
  destruct (PoseJPL_new_spec
              (Heap (<[n := OIMU (Type_ctor 21) None None None None None]> (objs h)) (Pos.succ n)))
    as (h1 & Hrun1 & Hn1 & Hr1 & Hf1).
  simpl in Hrun1, Hn1, Hr1, Hf1.
  unfold bind at 1. rewrite Hrun1.
  apply read_PoseJPL_inv in Hr1. simpl in Hr1. destruct Hr1 as (Hp1 & Hq1 & Hpp1).
  assert (Hthis1 : objs h1 !! n = Some (OIMU (Type_ctor 21) None None None None None)).
  { rewrite Hf1 by lia. apply lookup_insert_eq. }
  unfold IMU.set_member, Vec_new, bind, deref, store, alloc, ret.
  heap_simp. rewrite Hn1. simpl.
  match goal with |- context [PoseJPL_new ?hh] =>
    destruct (PoseJPL_new_spec hh) as (h2 & Hrun2 & Hn2 & Hr2 & Hf2) end.
  simpl in Hrun2, Hn2, Hr2, Hf2.
  rewrite Hrun2. clear Hrun1 Hrun2.
  apply read_PoseJPL_inv in Hr2. simpl in Hr2. destruct Hr2 as (Hp2 & Hq2 & Hpp2).
  assert (Hthis2 : objs h2 !! n = Some (OIMU (Type_ctor 21) (Some (off n 1)) (Some (off n 4))
                                         (Some (off n 5)) (Some (off n 6)) None)).
  { rewrite Hf2 by lia. apply lookup_insert_eq. }
  assert (H21 : objs h2 !! off n 1 = objs h1 !! off n 1).
  { rewrite Hf2 by (simpl; lia). simpl. now rewrite !lookup_insert_ne by lia. }
  assert (H22 : objs h2 !! off n 2 = objs h1 !! off n 2).
  { rewrite Hf2 by (simpl; lia). simpl. now rewrite !lookup_insert_ne by lia. }
  assert (H23 : objs h2 !! off n 3 = objs h1 !! off n 3).
  { rewrite Hf2 by (simpl; lia). simpl. now rewrite !lookup_insert_ne by lia. }
  assert (H24 : objs h2 !! off n 4 = Some (OVec vec3)).
  { rewrite Hf2 by (simpl; lia). simpl. heap_simp. reflexivity. }
  assert (H25 : objs h2 !! off n 5 = Some (OVec vec3)).
  { rewrite Hf2 by (simpl; lia). simpl. heap_simp. reflexivity. }
  assert (H26 : objs h2 !! off n 6 = Some (OVec vec3)).
  { rewrite Hf2 by (simpl; lia). simpl. heap_simp. reflexivity. }
  simpl in H21, H22, H23, H24, H25, H26, Hthis2.
  rewrite Hp1 in H21. rewrite Hq1 in H22. rewrite Hpp1 in H23.
  heap_simp.
  set (s7 := IMUView (Type_ctor 21)
          (off n 1) (default_pose (off n 1))
          (off n 4) vec3 (off n 5) vec3 (off n 6) vec3
          (off n 7) (default_pose (off n 7))).
  match goal with |- context [IMU.set_value_internal _ _ ?hh] => set (h7 := hh) end.
  assert (Hr7 : read_IMU h7 n = Some s7).
  { unfold_reads. subst h7. heap_simp. reflexivity. }
  assert (Hnd7 : NoDup (IMU_locs n s7)).
  { unfold IMU_locs, s7. simpl. repeat (apply NoDup_cons; split; [rewrite ?not_elem_of_cons; repeat split; try lia; apply not_elem_of_nil|]). apply NoDup_nil_2. }
  destruct (set_value_spec h7 n s7 IMU.imu0 Hr7 Hnd7 eq_refl eq_refl eq_refl)
    as (h8 & Hrun8 & Hn8 & Hr8 & Hf8).
  change (IMU.set_value_internal (Some n) IMU.imu0 h7 = Ok tt h8) in Hrun8.
  rewrite Hrun8.
  destruct (set_fej_spec h8 n _ IMU.imu0 Hr8 Hnd7 eq_refl eq_refl eq_refl)
    as (h9 & Hrun9 & Hn9 & Hr9 & Hf9).
  change (IMU.set_fej_internal (Some n) IMU.imu0 h8 = Ok tt h9) in Hrun9.
  rewrite Hrun9.
  exists h9. split; [reflexivity|]. split; [rewrite Hn9, Hn8; subst h7; simpl; now rewrite Hn2|].
  split; [exact Hr9|].
  intros x Hx.
  assert (Hx7 : x ∉ IMU_locs n s7).
  { unfold IMU_locs, s7. simpl. rewrite !not_elem_of_cons. repeat split; try lia. apply not_elem_of_nil. }
  rewrite Hf9, Hf8 by exact Hx7. subst h7. simpl.
  rewrite lookup_insert_ne by lia. rewrite Hf2 by lia.
  rewrite !lookup_insert_ne by lia. rewrite Hf1 by lia. now rewrite lookup_insert_ne by lia.
Qed.

Lemma IMU_state_alloc h a s x :
  IMU_state h a s -> x ∈ IMU_locs a s -> (x < next h)%positive.
Proof.
  intros [_ _ Hal _] Hx. rewrite Forall_forall in Hal. auto.
Qed.

(** move the lookups of the ten objects to a store that agrees with the
    first below [next] *)
Ltac transport Hst Hfr :=
  repeat match goal with
         | H : objs ?h !! ?x = Some _ |- _ =>
             lazymatch type of Hfr with
             | forall y, _ -> objs ?h1 !! y = objs h !! y =>
                 rewrite <- (Hfr x) in H
                   by (apply (IMU_state_alloc _ _ _ _ Hst); unfold IMU_locs; simpl;
                       rewrite !elem_of_cons; tauto)
             end
         end.

Lemma reset_keyframe_states_spec h a s :
  IMU_state h a s ->
  exists h', IMU.reset_keyframe_states (Some a) h = Ok tt h' /\
    next h' = off (next h) 3 /\
    read_IMU h' a = Some (view_reset_keyframe_states s) /\
    (forall x, x ∉ IMU_locs a s -> (x < next h)%positive -> objs h' !! x = objs h !! x).
Proof.
  intros Hst. pose proof Hst as [Hr Hnd Hal Hsh].
  destruct (PoseJPL_new_spec h) as (h1 & Hrun1 & Hn1 & Hr1 & Hf1).
  apply read_PoseJPL_inv in Hr1. simpl in Hr1. destruct Hr1 as (Hp1 & Hq1 & Hpp1).
  apply read_IMU_inv in Hr. destruct_and!.
  transport Hst Hf1.
  assert (Hlt : Forall (fun x => (x < next h)%positive) (IMU_locs a s)) by exact Hal.
  unfold IMU_locs in *. rewrite !Forall_cons in Hlt. destruct_and!.
  nodup_facts Hnd. open_shapes. open_view s. clear Hst Hal.
  eexists. split.
  { unfold IMU.reset_keyframe_states, bind at 1. rewrite Hrun1.
    unfold_ops. unfold block_fits. heap_simp. reflexivity. }
  split; [simpl; now rewrite Hn1|]. split.
  { unfold_reads. heap_simp. reflexivity. }
  intros x Hx Hxn. rewrite !not_elem_of_cons in Hx. destruct_and!.
  simpl. rewrite !lookup_delete_ne by addr_lia. rewrite !lookup_insert_ne by congruence.
  now apply Hf1.
Qed.

(** *** Dimensions and addresses are kept *)

Ltac shape_solve s :=
  open_shapes; open_view s;
  unfold IMU_shaped, subs_shaped, pose_shaped, shaped, has_shape;
  heap_simp; reflexivity.

Lemma IMU_shaped_subs s : IMU_shaped s = true -> subs_shaped s = true.
Proof. unfold IMU_shaped. intros H. apply andb_true_iff in H. tauto. Qed.

Lemma IMU_shaped_value s :
  IMU_shaped s = true ->
  rows (_value (imu_b s)) = 23%nat /\ cols (_value (imu_b s)) = 1%nat /\
  rows (_fej (imu_b s)) = 23%nat /\ cols (_fej (imu_b s)) = 1%nat.
Proof.
  unfold IMU_shaped. intros H. apply andb_true_iff in H as [H _].
  apply shaped_inv in H. tauto.
Qed.

Lemma IMU_shaped_set_value s m :
  IMU_shaped s = true -> rows m = 23%nat -> cols m = 1%nat ->
  IMU_shaped (view_set_value s m) = true.
Proof. intros Hsh Hr Hc. shape_solve s. Qed.

Lemma IMU_shaped_set_fej s m :
  IMU_shaped s = true -> rows m = 23%nat -> cols m = 1%nat ->
  IMU_shaped (view_set_fej s m) = true.
Proof. intros Hsh Hr Hc. shape_solve s. Qed.

Lemma IMU_shaped_update s dx :
  IMU_shaped s = true -> IMU_shaped (view_update s dx) = true.
Proof.
  intros Hsh. destruct (IMU_shaped_value s Hsh) as (Hr & Hc & _).
  apply IMU_shaped_set_value; [assumption| |].
  - now rewrite rows_update_value.
  - now rewrite cols_update_value.
Qed.

Lemma IMU_shaped_set_local_id s i :
  IMU_shaped s = true -> IMU_shaped (view_set_local_id s i) = true.
Proof. intros Hsh. shape_solve s. Qed.

Lemma IMU_shaped_reset s :
  IMU_shaped s = true -> IMU_shaped (view_reset_keyframe_states s) = true.
Proof. intros Hsh. shape_solve s. Qed.

Lemma IMU_shaped_default n : IMU_shaped (default_view n) = true.
Proof. reflexivity. Qed.

(** a state follows a state when the addresses are the same, nothing was
    given back to the allocator and the dimensions are as before *)
Lemma IMU_state_next h h' a s s' :
  IMU_state h a s -> read_IMU h' a = Some s' ->
  IMU_locs a s' = IMU_locs a s -> (next h <= next h')%positive ->
  IMU_shaped s' = true ->
  IMU_state h' a s'.
Proof.
  intros [Hr Hnd Hal Hsh] Hr' Hl Hn Hsh'.
  split; [assumption|now rewrite Hl| |assumption].
  rewrite Hl. eapply Forall_impl; [exact Hal|]. simpl. intros x Hx. lia.
Qed.

Lemma NoDup_default n : NoDup (IMU_locs n (default_view n)).
Proof.
  unfold IMU_locs. simpl.
  repeat (apply NoDup_cons; split;
          [rewrite ?not_elem_of_cons; repeat split; try lia; apply not_elem_of_nil|]).
  apply NoDup_nil_2.
Qed.

Lemma IMU_state_new h h' :
  IMU.new h = Ok (Some (next h)) h' -> next h' = off (next h) 10 ->
  read_IMU h' (next h) = Some (default_view (next h)) ->
  IMU_state h' (next h) (default_view (next h)).
Proof.
  intros _ Hn Hr. split; [assumption|apply NoDup_default| |reflexivity].
  rewrite Hn. unfold IMU_locs. simpl.
  repeat (apply Forall_cons; split; [lia|]). apply Forall_nil_2.
Qed.

(** *** clone *)

Lemma clone_spec h a s :
  IMU_state h a s ->
  exists h', IMU.clone (Some a) h = Ok (Some (next h)) h' /\
    next h' = off (next h) 10 /\
    read_IMU h' (next h) = Some (view_clone (next h) s) /\
    (forall x, (x < next h)%positive -> objs h' !! x = objs h !! x).
Proof.
  intros Hst. pose proof Hst as [Hr Hnd Hal Hsh].
  destruct (IMU_shaped_value s Hsh) as (Hvr & Hvc & Hfr & Hfc).
  destruct (new_spec h) as (h1 & Hrun1 & Hn1 & Hr1 & Hf1).
  destruct (set_value_spec h1 (next h) _ (_value (imu_b s)) Hr1 (NoDup_default _) eq_refl Hvr Hvc)
    as (h2 & Hrun2 & Hn2 & Hr2 & Hf2).
  destruct (set_fej_spec h2 (next h) _ (_fej (imu_b s)) Hr2 (NoDup_default _) eq_refl Hfr Hfc)
    as (h3 & Hrun3 & Hn3 & Hr3 & Hf3).
  assert (Ha : (a < next h)%positive)
    by (apply (IMU_state_alloc _ _ _ _ Hst); unfold IMU_locs; rewrite elem_of_cons; tauto).
  assert (Hfresh : forall x, (x < next h)%positive -> x ∉ IMU_locs (next h) (default_view (next h))).
  { intros x Hx. unfold IMU_locs. simpl. rewrite !not_elem_of_cons.
    repeat split; try lia. apply not_elem_of_nil. }
  apply read_IMU_inv in Hr. destruct Hr as (Hthis & _).
  assert (Hthis1 : objs h1 !! a = objs h !! a) by (now apply Hf1).
  assert (Hthis2 : objs h2 !! a = objs h !! a).
  { rewrite Hf2 by (now apply Hfresh). exact Hthis1. }
  exists h3. split.
  { unfold IMU.clone, bind at 1. rewrite Hrun1.
    unfold Type_value, Type_fej, bind, deref, ret.
    rewrite Hthis1, Hthis. simpl. rewrite Hrun2, Hthis2, Hthis. simpl.
    rewrite Hrun3. reflexivity. }
  split; [now rewrite Hn3, Hn2|]. split; [exact Hr3|].
  intros x Hx. rewrite Hf3, Hf2 by (now apply Hfresh). now apply Hf1.
Qed.


(** *** check_if_subvariable *)

(** settle the identity tests of the goal from the facts at hand *)
Ltac decide_all :=
  repeat (heap_simp;
          first [ rewrite bool_decide_eq_true_2 by congruence
                | rewrite bool_decide_eq_false_2 by congruence
                | rewrite decide_True by congruence
                | rewrite decide_False by congruence ]);
  heap_simp.

(** compare [c] with the addresses of [l] in turn, closing the goal at the
    first that it equals *)
Ltac chain c l :=
  lazymatch l with
  | @nil _ => decide_all; try reflexivity
  | @cons _ ?x ?l' =>
      destruct (decide (c = x)) as [->|?]; [decide_all; try reflexivity | chain c l']
  end.

Lemma PoseJPL_check_if_subvariable_spec h a b q p check :
  objs h !! a = Some (OPoseJPL b (Some q) (Some p)) ->
  PoseJPL_check_if_subvariable (Some a) check h = Ok (find_first [q; p] check) h.
Proof.
  intros Ha. unfold find_first. unfold_ops. rewrite !filter_cons, filter_nil.
  destruct check as [c|]; [|decide_all; reflexivity].
  chain c [q; p].
Qed.

Arguments PoseJPL_check_if_subvariable : simpl never.

Ltac decide_sub :=
  repeat (heap_simp;
          first [ rewrite bool_decide_eq_true_2 by congruence
                | rewrite bool_decide_eq_false_2 by congruence
                | rewrite decide_True by congruence
                | rewrite decide_False by congruence
                | erewrite PoseJPL_check_if_subvariable_spec by eassumption;
                  unfold find_first; rewrite ?filter_cons, ?filter_nil ]);
  heap_simp.

Ltac chain_sub c l :=
  lazymatch l with
  | @nil _ => decide_sub; try reflexivity
  | @cons _ ?x ?l' =>
      destruct (decide (c = x)) as [->|?]; [decide_sub; try reflexivity | chain_sub c l']
  end.

Lemma check_if_subvariable_spec h a s check :
  read_IMU h a = Some s ->
  IMU.check_if_subvariable (Some a) check h = Ok (find_first (subvariables s) check) h.
Proof.
  intros Hr. apply read_IMU_inv in Hr.
  destruct Hr as (Ha & Hpose & _ & _ & _ & _ & _ & Hkf & _).
  open_view s.
  unfold IMU.check_if_subvariable, subvariables,
    IMU._pose, IMU._v, IMU._bg, IMU._ba, IMU._keyframe_pose, bind, deref, ret.
  unfold find_first; rewrite ?filter_cons, ?filter_nil.
  destruct check as [c|]; [|decide_sub; reflexivity].
  chain_sub c [pose; q; p; v; bg; ba; kf; kq; kp].
Qed.

(** *** update, coefficient by coefficient *)

Lemma update_value_coeffs X q kq dx :
  rows X = 23%nat -> cols X = 1%nat ->
  q = block X 0 0 4 1 -> kq = block X 16 0 4 1 ->
  let D := IMU.VectorXd dx in
  let Q :=
    quat_multiply
      (quatnorm (Mat 4 1 [0.5 * coeff D 0 0; 0.5 * coeff D 1 0; 0.5 * coeff D 2 0; 1]%float))
      (Mat 4 1 [coeff X 0 0; coeff X 1 0; coeff X 2 0; coeff X 3 0]) in
  let KQ :=
    quat_multiply
      (quatnorm
         (Mat 4 1 [0.5 * coeff D 15 0; 0.5 * coeff D 16 0; 0.5 * coeff D 17 0; 1]%float))
      (Mat 4 1 [coeff X 16 0; coeff X 17 0; coeff X 18 0; coeff X 19 0]) in
  update_value X q kq dx
  = Mat 23 1
      [coeff Q 0 0; coeff Q 1 0; coeff Q 2 0; coeff Q 3 0;
       coeff X 4 0 + coeff D 3 0; coeff X 5 0 + coeff D 4 0; coeff X 6 0 + coeff D 5 0;
       coeff X 7 0 + coeff D 6 0; coeff X 8 0 + coeff D 7 0; coeff X 9 0 + coeff D 8 0;
       coeff X 10 0 + coeff D 9 0; coeff X 11 0 + coeff D 10 0; coeff X 12 0 + coeff D 11 0;
       coeff X 13 0 + coeff D 12 0; coeff X 14 0 + coeff D 13 0; coeff X 15 0 + coeff D 14 0;
       coeff KQ 0 0; coeff KQ 1 0; coeff KQ 2 0; coeff KQ 3 0;
       coeff X 20 0 + coeff D 18 0; coeff X 21 0 + coeff D 19 0;
       coeff X 22 0 + coeff D 20 0]%float.
Proof.
  intros Hr Hc -> ->. destruct X as [r c l]. simpl in Hr, Hc. subst r c.
  vm_compute. reflexivity.
Qed.

(** *** The sub-variables agree with the flat vectors *)

Lemma consistent_value_set_value s m : consistent_value (view_set_value s m).
Proof. destruct m as [r c l]. repeat split; vm_compute; reflexivity. Qed.

Lemma consistent_fej_set_fej s m : consistent_fej (view_set_fej s m).
Proof. destruct m as [r c l]. repeat split; vm_compute; reflexivity. Qed.

Lemma consistent_fej_set_value s m :
  consistent_fej s -> consistent_fej (view_set_value s m).
Proof. intros H. exact H. Qed.

Lemma consistent_value_set_fej s m :
  consistent_value s -> consistent_value (view_set_fej s m).
Proof. intros H. exact H. Qed.

Lemma consistent_reset s :
  IMU_shaped s = true -> consistent s -> consistent (view_reset_keyframe_states s).
Proof.
  intros Hsh [Hv Hf]. destruct (IMU_shaped_value s Hsh) as (Hvr & Hvc & Hfr & Hfc).
  unfold consistent_value, consistent_fej in *. open_view s.
  destruct b as [F X i sz]. simpl in *.
  destruct X as [rx cx lx], F as [rf cf lf]. simpl in *. subst rx cx rf cf.
  destruct_and!. unfold view_reset_keyframe_states. simpl.
  split; repeat split; simpl;
    try match goal with H : ?l = _ |- ?l = _ => rewrite H end;
    vm_compute; reflexivity.
Qed.

Lemma consistent_default n : consistent (default_view n).
Proof. split; repeat split; vm_compute; reflexivity. Qed.

Lemma consistent_exec s c :
  IMU_shaped s = true -> consistent s -> consistent (view_exec s c).
Proof.
  intros Hsh [Hv Hf]. destruct c as [v|v|dx|]; simpl.
  - split; [apply consistent_value_set_value | now apply consistent_fej_set_value].
  - split; [now apply consistent_value_set_fej | apply consistent_fej_set_fej].
  - split; [apply consistent_value_set_value | now apply consistent_fej_set_value].
  - now apply consistent_reset.
Qed.

(** *** One call, and a sequence of calls *)

Lemma valid_call_shape v : has_shape v 23 1 = true -> rows v = 23%nat /\ cols v = 1%nat.
Proof. unfold has_shape. rewrite andb_true_iff, !Nat.eqb_eq. tauto. Qed.

Lemma exec_spec h a s c :
  IMU_state h a s -> valid_call c = true ->
  exists h', exec (Some a) c h = Ok tt h' /\ IMU_state h' a (view_exec s c) /\
    (forall x, x ∉ IMU_locs a s -> (x < next h)%positive -> objs h' !! x = objs h !! x).
Proof.
  intros Hst Hv. pose proof Hst as [Hr Hnd Hal Hsh].
  pose proof (IMU_shaped_subs s Hsh) as Hsub.
  destruct c as [v|v|dx|]; simpl in *.
  - apply valid_call_shape in Hv as [Hvr Hvc].
    destruct (set_value_spec h a s v Hr Hnd Hsub Hvr Hvc) as (h' & Hrun & Hn & Hr' & Hf).
    exists h'. split; [assumption|]. split; [|auto].
    apply (IMU_state_next h h' a s); auto; [rewrite Hn; lia|].
    now apply IMU_shaped_set_value.
  - apply valid_call_shape in Hv as [Hvr Hvc].
    destruct (set_fej_spec h a s v Hr Hnd Hsub Hvr Hvc) as (h' & Hrun & Hn & Hr' & Hf).
    exists h'. split; [assumption|]. split; [|auto].
    apply (IMU_state_next h h' a s); auto; [rewrite Hn; lia|].
    now apply IMU_shaped_set_fej.
  - apply Nat.eqb_eq in Hv.
    destruct (update_spec h a s dx Hr Hnd Hsh Hv) as (h' & Hrun & Hn & Hr' & Hf).
    exists h'. split; [assumption|]. split; [|auto].
    apply (IMU_state_next h h' a s); auto; [rewrite Hn; lia|].
    now apply IMU_shaped_update.
  - destruct (reset_keyframe_states_spec h a s Hst) as (h' & Hrun & Hn & Hr' & Hf).
    exists h'. split; [assumption|]. split; [|auto].
    apply (IMU_state_next h h' a s); auto; [rewrite Hn; simpl; lia|].
    now apply IMU_shaped_reset.
Qed.

Lemma exec_all_spec cs : forall h a s,
  IMU_state h a s -> consistent s -> forallb valid_call cs = true ->
  exists h' s', exec_all (Some a) cs h = Ok tt h' /\ IMU_state h' a s' /\ consistent s'.
Proof.
  induction cs as [|c cs IH]; intros h a s Hst Hc Hv.
  - exists h, s. auto.
  - simpl in Hv. apply andb_true_iff in Hv as [Hv1 Hv2].
    destruct (exec_spec h a s c Hst Hv1) as (h1 & Hrun1 & Hst1 & _).
    assert (Hc1 : consistent (view_exec s c))
      by (apply consistent_exec; [apply Hst|assumption]).
    destruct (IH h1 a _ Hst1 Hc1 Hv2) as (h' & s' & Hrun & Hst' & Hc').
    exists h', s'. split; [|auto].
    simpl. unfold bind. now rewrite Hrun1.
Qed.

(** *** The concrete stores hold states *)

(** a concrete store holds a state: read it, and compare the addresses *)
Ltac state_compute :=
  split;
  [ vm_compute; reflexivity
  | exact (NoDup_default 1)
  | unfold IMU_locs; simpl; repeat (apply Forall_cons; split; [reflexivity|]); apply Forall_nil_2
  | reflexivity ].

(** ** The claims *)

(** C1.  For every integer [i], [set_local_id(i)] succeeds on every IMU
    state and leaves the variable's own index and the pose's index at [i];
    each later sub-variable (velocity, gyro bias, accelerometer bias,
    keyframe pose) receives the index of the one before it plus that one's
    error dimension when [i <> -1] and plus 0 when [i = -1], the error
    dimensions being 6, 3, 3 and 3.  With [i = -1] all five are -1; with
    [i = 5] they are 5, 11, 14, 17 and 20. *)
Theorem set_local_id_running_offsets h a s i :
  IMU_state h a s ->
  exists h' s',
    IMU.set_local_id (Some a) i h = Ok tt h' /\ IMU_state h' a s' /\
    let pose := pose_b (pose_v s') in
    let five := [_id pose; _id (v_b s'); _id (bg_b s'); _id (ba_b s');
                 _id (pose_b (kf_v s'))] in
    _id (imu_b s') = i /\
    _id pose = i /\
    _id (v_b s') = int_add (_id pose) (if bool_decide (i <> -1) then _size pose else 0) /\
    _id (bg_b s')
      = int_add (_id (v_b s')) (if bool_decide (i <> -1) then _size (v_b s') else 0) /\
    _id (ba_b s')
      = int_add (_id (bg_b s')) (if bool_decide (i <> -1) then _size (bg_b s') else 0) /\
    _id (pose_b (kf_v s'))
      = int_add (_id (ba_b s')) (if bool_decide (i <> -1) then _size (ba_b s') else 0) /\
    [_size pose; _size (v_b s'); _size (bg_b s'); _size (ba_b s')] = [6; 3; 3; 3] /\
    (i = -1 -> five = [-1; -1; -1; -1; -1]) /\
    (i = 5 -> five = [5; 11; 14; 17; 20]).
Proof.
  intros Hst. pose proof Hst as [Hr Hnd Hal Hsh].
  destruct (set_local_id_spec h a s i Hr Hnd) as (h' & Hrun & Hn & Hr' & _).
  exists h', (view_set_local_id s i). split; [assumption|]. split.
  { apply (IMU_state_next h h' a s _ Hst Hr');
      [reflexivity | rewrite Hn; lia | now apply IMU_shaped_set_local_id]. }
  open_shapes. open_view s.
  unfold view_set_local_id, next_id. simpl.
  repeat match goal with H : _size _ = _ |- _ => rewrite H end.
  repeat split; try reflexivity; intros ->; reflexivity.
Qed.

Lemma set_local_id_running_offsets_witness :
  IMU_state h0 1 s0 /\
  exists h' s',
    IMU.set_local_id (Some 1%positive) 5 h0 = Ok tt h' /\ IMU_state h' 1 s' /\
    [_id (pose_b (pose_v s')); _id (v_b s'); _id (bg_b s'); _id (ba_b s');
     _id (pose_b (kf_v s'))] = [5; 11; 14; 17; 20].
Proof.
  assert (H0 : IMU_state h0 1 s0) by state_compute.
  split; [exact H0|].
  destruct (set_local_id_running_offsets h0 1 s0 5 H0) as (h' & s' & Hrun & Hst & H).
  exists h', s'. split; [exact Hrun|]. split; [exact Hst|].
  simpl in H. apply H. reflexivity.
Defined.

(** C2.  On every IMU state whose sub-variables agree with the flat value,
    and for every 21-vector [dx], [update(dx)] succeeds and leaves a state
    of the same kind whose flat value is given coefficient by coefficient.
    The orientation range [0:4) is [quat_multiply] of the normalised
    4-vector [0.5 * dx(0), 0.5 * dx(1), 0.5 * dx(2), 1] and the old
    orientation [x(0), ..., x(3)], the increment on the left; the keyframe
    orientation range [16:20) is the same with [dx(15), dx(16), dx(17)] and
    [x(16), ..., x(19)]; and each coefficient of position, velocity, gyro
    bias, accelerometer bias and keyframe position is the floating-point
    sum of the old coefficient and the coefficient of [dx] at the offsets
    3, 6, 9, 12 and 18. *)
Theorem update_applies_update_laws h a s dx :
  IMU_state h a s -> consistent_value s -> length dx = 21%nat ->
  exists h' s',
    IMU.update (Some a) dx h = Ok tt h' /\ IMU_state h' a s' /\ consistent_value s' /\
    let D := IMU.VectorXd dx in
    let X := _value (imu_b s) in
    let Q :=
      quat_multiply
        (quatnorm (Mat 4 1 [0.5 * coeff D 0 0; 0.5 * coeff D 1 0; 0.5 * coeff D 2 0; 1]%float))
        (Mat 4 1 [coeff X 0 0; coeff X 1 0; coeff X 2 0; coeff X 3 0]) in
    let KQ :=
      quat_multiply
        (quatnorm
           (Mat 4 1 [0.5 * coeff D 15 0; 0.5 * coeff D 16 0; 0.5 * coeff D 17 0; 1]%float))
        (Mat 4 1 [coeff X 16 0; coeff X 17 0; coeff X 18 0; coeff X 19 0]) in
    _value (imu_b s')
    = Mat 23 1
        [coeff Q 0 0; coeff Q 1 0; coeff Q 2 0; coeff Q 3 0;
         coeff X 4 0 + coeff D 3 0; coeff X 5 0 + coeff D 4 0; coeff X 6 0 + coeff D 5 0;
         coeff X 7 0 + coeff D 6 0; coeff X 8 0 + coeff D 7 0; coeff X 9 0 + coeff D 8 0;
         coeff X 10 0 + coeff D 9 0; coeff X 11 0 + coeff D 10 0; coeff X 12 0 + coeff D 11 0;
         coeff X 13 0 + coeff D 12 0; coeff X 14 0 + coeff D 13 0; coeff X 15 0 + coeff D 14 0;
         coeff KQ 0 0; coeff KQ 1 0; coeff KQ 2 0; coeff KQ 3 0;
         coeff X 20 0 + coeff D 18 0; coeff X 21 0 + coeff D 19 0;
         coeff X 22 0 + coeff D 20 0]%float.
Proof.
  intros Hst Hc Hlen. pose proof Hst as [Hr Hnd Hal Hsh].
  destruct (update_spec h a s dx Hr Hnd Hsh Hlen) as (h' & Hrun & Hn & Hr' & _).
  exists h', (view_update s dx). split; [assumption|]. split.
  { apply (IMU_state_next h h' a s _ Hst Hr');
      [reflexivity | rewrite Hn; lia | now apply IMU_shaped_update]. }
  split; [apply consistent_value_set_value|].
  destruct (IMU_shaped_value s Hsh) as (Hvr & Hvc & _).
  destruct Hc as (_ & Hq & _ & _ & _ & _ & _ & Hkq & _).
  exact (update_value_coeffs _ _ _ dx Hvr Hvc Hq Hkq).
Qed.

Lemma update_applies_update_laws_witness :
  IMU_state h_rot 1 s_rot /\ consistent_value s_rot /\ length dx_rot = 21%nat /\
  _value (imu_b s_rot) = v_rot /\
  exists h' s',
    IMU.update (Some 1%positive) dx_rot h_rot = Ok tt h' /\ IMU_state h' 1 s' /\
    _value (imu_b s')
    = Mat 23 1 [-0.5; 0.5; -0.5; 0.5; 11; 22; 33; 1.5; 1.5; 1.5; 2.25; 2.25; 2.25;
                3.125; 3.125; 3.125; 1; 0; 0; 0; 5; 7; 9]%float.
Proof.
  assert (H0 : IMU_state h_rot 1 s_rot) by state_compute.
  assert (Hc : consistent_value s_rot) by (repeat split; vm_compute; reflexivity).
  split; [exact H0|]. split; [exact Hc|]. split; [reflexivity|]. split; [reflexivity|].
  destruct (update_applies_update_laws h_rot 1 s_rot dx_rot H0 Hc eq_refl)
    as (h' & s' & Hrun & Hst & _ & HX).
  exists h', s'. split; [exact Hrun|]. split; [exact Hst|].
  rewrite HX. vm_compute. reflexivity.
Defined.

(** C3.  On every IMU state, [update(dx)] with a [dx] that does not have
    exactly 21 rows is stopped by its assertion, and [set_value(v)] and
    [set_fej(v)] with a [v] that is not 23 x 1 are stopped by theirs; in
    each case the store at that moment is the store the call started
    from: nothing was written.  With arguments of the right dimension the
    three calls return. *)
Theorem dimension_mismatch_aborts_unchanged h a s :
  IMU_state h a s ->
  (forall dx, length dx <> 21%nat -> IMU.update (Some a) dx h = Abort h) /\
  (forall v, ~ (rows v = 23%nat /\ cols v = 1%nat) ->
     IMU.set_value (Some a) v h = Abort h /\ IMU.set_fej (Some a) v h = Abort h) /\
  (forall dx, length dx = 21%nat -> exists h', IMU.update (Some a) dx h = Ok tt h') /\
  (forall v, rows v = 23%nat /\ cols v = 1%nat ->
     (exists h', IMU.set_value (Some a) v h = Ok tt h') /\
     (exists h', IMU.set_fej (Some a) v h = Ok tt h')).
Proof.
  intros Hst. pose proof Hst as [Hr Hnd Hal Hsh].
  pose proof (IMU_shaped_subs s Hsh) as Hsub.
  split; [|split; [|split]].
  - intros dx Hlen.
    apply read_IMU_inv in Hr. destruct Hr as (Ha & _).
    unfold IMU_shaped in Hsh. apply andb_true_iff in Hsh as [Hb _].
    apply shaped_inv in Hb. destruct Hb as (_ & _ & _ & _ & Hsz).
    unfold IMU.update, Type_size, bind, deref, ret, assert.
    rewrite Ha. simpl. rewrite Hsz.
    destruct (Z.eqb_spec (Z.of_nat (length dx)) 21) as [E|E]; [lia|reflexivity].
  - intros v Hv.
    unfold IMU.set_value, IMU.set_value_internal, IMU.set_fej, IMU.set_fej_internal,
      bind, assert.
    destruct (Nat.eqb_spec (rows v) 23) as [E1|E1]; [|split; reflexivity].
    destruct (Nat.eqb_spec (cols v) 1) as [E2|E2]; [tauto|split; reflexivity].
  - intros dx Hlen.
    destruct (update_spec h a s dx Hr Hnd Hsh Hlen) as (h' & Hrun & _). eauto.
  - intros v [Hvr Hvc]. split.
    + destruct (set_value_spec h a s v Hr Hnd Hsub Hvr Hvc) as (h' & Hrun & _). eauto.
    + destruct (set_fej_spec h a s v Hr Hnd Hsub Hvr Hvc) as (h' & Hrun & _). eauto.
Qed.

Lemma dimension_mismatch_aborts_unchanged_witness :
  IMU_state h0 1 s0 /\
  IMU.update (Some 1%positive) [1; 2; 3]%float h0 = Abort h0 /\
  IMU.set_value (Some 1%positive) (Zero 21 1) h0 = Abort h0 /\
  IMU.set_fej (Some 1%positive) (Zero 23 2) h0 = Abort h0.
Proof.
  assert (H0 : IMU_state h0 1 s0) by state_compute.
  split; [exact H0|].
  destruct (dimension_mismatch_aborts_unchanged h0 1 s0 H0) as (Hu & Hv & _).
  split; [apply Hu; simpl; lia|].
  split; [apply (Hv (Zero 21 1)) | apply (Hv (Zero 23 2))]; simpl; lia.
Defined.

(** C4.  On every IMU state and for every 23 x 1 matrix [v] (whatever the
    norm of its quaternion ranges), [set_value(v)] succeeds and [value()]
    then returns [v] itself; [set_fej(v)] succeeds and [fej()] then returns
    [v] itself. *)
Theorem set_value_round_trip h a s v :
  IMU_state h a s -> rows v = 23%nat -> cols v = 1%nat ->
  (exists h', IMU.set_value (Some a) v h = Ok tt h' /\
              Type_value (Some a) h' = Ok v h') /\
  (exists h', IMU.set_fej (Some a) v h = Ok tt h' /\
              Type_fej (Some a) h' = Ok v h').
Proof.
  intros Hst Hvr Hvc. pose proof Hst as [Hr Hnd Hal Hsh].
  pose proof (IMU_shaped_subs s Hsh) as Hsub.
  split.
  - destruct (set_value_spec h a s v Hr Hnd Hsub Hvr Hvc) as (h' & Hrun & _ & Hr' & _).
    exists h'. split; [assumption|].
    apply read_IMU_inv in Hr'. destruct Hr' as (Ha & _).
    unfold Type_value, bind, deref, ret. rewrite Ha. reflexivity.
  - destruct (set_fej_spec h a s v Hr Hnd Hsub Hvr Hvc) as (h' & Hrun & _ & Hr' & _).
    exists h'. split; [assumption|].
    apply read_IMU_inv in Hr'. destruct Hr' as (Ha & _).
    unfold Type_fej, bind, deref, ret. rewrite Ha. reflexivity.
Qed.

Lemma set_value_round_trip_witness :
  IMU_state h0 1 s0 /\ rows v_kf = 23%nat /\ cols v_kf = 1%nat /\
  (exists h', IMU.set_value (Some 1%positive) v_kf h0 = Ok tt h' /\
              Type_value (Some 1%positive) h' = Ok v_kf h') /\
  (exists h', IMU.set_fej (Some 1%positive) v_kf h0 = Ok tt h' /\
              Type_fej (Some 1%positive) h' = Ok v_kf h').
Proof.
  assert (H0 : IMU_state h0 1 s0) by state_compute.
  split; [exact H0|]. split; [reflexivity|]. split; [reflexivity|].
  exact (set_value_round_trip h0 1 s0 v_kf H0 eq_refl eq_refl).
Defined.

(** C5.  In any store, a variable built by [IMU()] has identity
    orientation, zero position, velocity and biases, identity keyframe
    orientation and zero keyframe position; [update] with the all-zero
    21-vector succeeds on it and leaves its whole state, the 23-vector
    value included, as it was. *)
Theorem zero_update_keeps_default h :
  exists a h1 h2 s,
    IMU.new h = Ok (Some a) h1 /\ IMU_state h1 a s /\
    _value (imu_b s)
      = Mat 23 1 [0; 0; 0; 1; 0; 0; 0; 0; 0; 0; 0; 0; 0; 0; 0; 0;
                  0; 0; 0; 1; 0; 0; 0]%float /\
    IMU.update (Some a) (repeat 0%float 21) h1 = Ok tt h2 /\
    IMU_state h2 a s /\
    Type_value (Some a) h2 = Ok (_value (imu_b s)) h2.
Proof.
  destruct (new_spec h) as (h1 & Hrun1 & Hn1 & Hr1 & _).
  pose proof (IMU_state_new h h1 Hrun1 Hn1 Hr1) as Hst1.
  destruct (update_spec h1 (next h) _ (repeat 0%float 21) Hr1 (NoDup_default _) eq_refl eq_refl)
    as (h2 & Hrun2 & Hn2 & Hr2 & _).
  assert (Hsame : view_update (default_view (next h)) (repeat 0%float 21)
                  = default_view (next h)) by (vm_compute; reflexivity).
  rewrite Hsame in Hr2.
  exists (next h), h1, h2, (default_view (next h)).
  split; [assumption|]. split; [assumption|]. split; [vm_compute; reflexivity|].
  split; [assumption|]. split.
  - apply (IMU_state_next h1 h2 (next h) _ _ Hst1 Hr2);
      [reflexivity | rewrite Hn2; lia | reflexivity].
  - apply read_IMU_inv in Hr2. destruct Hr2 as (Ha & _).
    unfold Type_value, bind, deref, ret. rewrite Ha. reflexivity.
Qed.

(** C6.  On every IMU state, [reset_keyframe_states()] succeeds; afterwards
    the range [16:23) of the value and of the linearization value is the
    identity orientation followed by the zero position, and so are the
    keyframe pose, its quaternion and its position; the range [0:16) of
    both vectors, the pose, velocity, gyro bias and accelerometer bias
    sub-variables and all ten covariance indices are as before. *)
Theorem reset_keyframe_states_frame h a s :
  IMU_state h a s ->
  exists h' s',
    IMU.reset_keyframe_states (Some a) h = Ok tt h' /\ IMU_state h' a s' /\
    let kf0 := Mat 7 1 [0; 0; 0; 1; 0; 0; 0]%float in
    block (_value (imu_b s')) 16 0 7 1 = kf0 /\
    block (_fej (imu_b s')) 16 0 7 1 = kf0 /\
    _value (pose_b (kf_v s')) = kf0 /\ _fej (pose_b (kf_v s')) = kf0 /\
    _value (q_b (kf_v s')) = Mat 4 1 [0; 0; 0; 1]%float /\
    _fej (q_b (kf_v s')) = Mat 4 1 [0; 0; 0; 1]%float /\
    _value (p_b (kf_v s')) = Mat 3 1 [0; 0; 0]%float /\
    _fej (p_b (kf_v s')) = Mat 3 1 [0; 0; 0]%float /\
    block (_value (imu_b s')) 0 0 16 1 = block (_value (imu_b s)) 0 0 16 1 /\
    block (_fej (imu_b s')) 0 0 16 1 = block (_fej (imu_b s)) 0 0 16 1 /\
    pose_v s' = pose_v s /\ v_b s' = v_b s /\ bg_b s' = bg_b s /\ ba_b s' = ba_b s /\
    ids s' = ids s.
Proof.
  intros Hst. pose proof Hst as [Hr Hnd Hal Hsh].
  destruct (reset_keyframe_states_spec h a s Hst) as (h' & Hrun & Hn & Hr' & _).
  exists h', (view_reset_keyframe_states s). split; [assumption|]. split.
  { apply (IMU_state_next h h' a s _ Hst Hr');
      [reflexivity | rewrite Hn; simpl; lia | now apply IMU_shaped_reset]. }
  destruct (IMU_shaped_value s Hsh) as (Hvr & Hvc & Hfr & Hfc).
  open_view s. destruct b as [F X i sz]. simpl in *.
  destruct X as [rx cx lx], F as [rf cf lf]. simpl in *. subst rx cx rf cf.
  unfold view_reset_keyframe_states. simpl.
  repeat split; vm_compute; reflexivity.
Qed.

Lemma reset_keyframe_states_frame_witness :
  IMU_state h_kf 1 s_kf /\
  _value (q_b (kf_v s_kf)) = Mat 4 1 [0.5; 0.5; 0.5; 0.5]%float /\
  _value (p_b (kf_v s_kf)) = Mat 3 1 [1; 2; 3]%float /\
  exists h' s',
    IMU.reset_keyframe_states (Some 1%positive) h_kf = Ok tt h' /\ IMU_state h' 1 s' /\
    block (_value (imu_b s')) 16 0 7 1 = Mat 7 1 [0; 0; 0; 1; 0; 0; 0]%float /\
    _value (q_b (kf_v s')) = Mat 4 1 [0; 0; 0; 1]%float /\
    _value (p_b (kf_v s')) = Mat 3 1 [0; 0; 0]%float /\
    block (_value (imu_b s')) 0 0 16 1 = block v_kf 0 0 16 1.
Proof.
  assert (H0 : IMU_state h_kf 1 s_kf) by state_compute.
  split; [exact H0|]. split; [vm_compute; reflexivity|]. split; [vm_compute; reflexivity|].
  destruct (reset_keyframe_states_frame h_kf 1 s_kf H0)
    as (h' & s' & Hrun & Hst & Hb & _ & _ & _ & Hq & _ & Hp & _ & Hrest & _).
  exists h', s'. split; [exact Hrun|]. split; [exact Hst|].
  split; [exact Hb|]. split; [exact Hq|]. split; [exact Hp|exact Hrest].
Defined.

(** C7.  On every IMU state, [clone()] succeeds and returns a variable
    made of ten objects allocated by the call, none of them an object of
    the original; its value and linearization value are the original's,
    all its covariance indices are -1, and the original is in the state it
    was in.  Every [update] of the clone with a 21-vector then succeeds and
    leaves the original, its value included, in that same state. *)
Theorem clone_is_independent h b1 s :
  IMU_state h b1 s ->
  exists b2 h' s2,
    IMU.clone (Some b1) h = Ok (Some b2) h' /\
    IMU_state h' b2 s2 /\ IMU_state h' b1 s /\
    Forall (fun x => (next h <= x)%positive /\ x ∉ IMU_locs b1 s) (IMU_locs b2 s2) /\
    _value (imu_b s2) = _value (imu_b s) /\
    _fej (imu_b s2) = _fej (imu_b s) /\
    ids s2 = repeat (-1) 10 /\
    forall dx, length dx = 21%nat ->
      exists h'' s2',
        IMU.update (Some b2) dx h' = Ok tt h'' /\
        IMU_state h'' b2 s2' /\ IMU_state h'' b1 s /\
        Type_value (Some b1) h'' = Ok (_value (imu_b s)) h''.
Proof.
  intros Hst. pose proof Hst as [Hr Hnd Hal Hsh].
  destruct (IMU_shaped_value s Hsh) as (Hvr & Hvc & Hfr & Hfc).
  destruct (clone_spec h b1 s Hst) as (h' & Hrun & Hn & Hr2 & Hf).
  set (b2 := next h) in *. set (s2 := view_clone b2 s) in *.
  assert (Hlocs : IMU_locs b2 s2 = IMU_locs b2 (default_view b2)) by reflexivity.
  assert (Hsh2 : IMU_shaped s2 = true).
  { unfold s2, view_clone. apply IMU_shaped_set_fej; [|assumption|assumption].
    apply IMU_shaped_set_value; [reflexivity|assumption|assumption]. }
  assert (Hnew : Forall (fun x => (next h <= x)%positive /\ (x < next h')%positive)
                   (IMU_locs b2 s2)).
  { rewrite Hlocs, Hn. unfold IMU_locs, b2. simpl.
    repeat (apply Forall_cons; split; [lia|]). apply Forall_nil_2. }
  assert (Hold : forall x, x ∈ IMU_locs b1 s -> (x < next h)%positive)
    by (intros x; apply (IMU_state_alloc _ _ _ _ Hst)).
  assert (Hst2 : IMU_state h' b2 s2).
  { split; [assumption|rewrite Hlocs; apply NoDup_default| |assumption].
    eapply Forall_impl; [exact Hnew|]. simpl. tauto. }
  assert (Hst1 : IMU_state h' b1 s).
  { split; [|assumption| |assumption].
    - apply (read_IMU_agree h h' b1 s Hr). intros x Hx. apply Hf. now apply Hold.
    - eapply Forall_impl; [exact Hal|]. simpl. intros x Hx. rewrite Hn. simpl. lia. }
  assert (Hdisj : forall x, x ∈ IMU_locs b1 s -> x ∉ IMU_locs b2 s2).
  { intros x Hx Hx2. apply Hold in Hx. rewrite Forall_forall in Hnew.
    apply Hnew in Hx2. lia. }
  exists b2, h', s2. split; [assumption|]. split; [assumption|]. split; [assumption|].
  split.
  { rewrite Forall_forall in Hnew |- *. intros x Hx. split; [now apply Hnew|].
    intros Hx1. now apply (Hdisj x Hx1). }
  split; [reflexivity|]. split; [reflexivity|]. split; [reflexivity|].
  intros dx Hlen.
  destruct Hst2 as [Hr2' Hnd2 Hal2 _].
  destruct (update_spec h' b2 s2 dx Hr2' Hnd2 Hsh2 Hlen) as (h'' & Hrun' & Hn' & Hr'' & Hf').
  assert (Hr1 : read_IMU h'' b1 = Some s).
  { apply (read_IMU_agree h' h'' b1 s); [apply Hst1|].
    intros x Hx. apply Hf'. now apply Hdisj. }
  exists h'', (view_update s2 dx). split; [assumption|]. split; [|split].
  - split; [assumption|assumption| |now apply IMU_shaped_update].
    eapply Forall_impl; [exact Hal2|]. simpl. intros x Hx. rewrite Hn'. exact Hx.
  - split; [assumption|assumption| |assumption].
    destruct Hst1 as [_ _ Hal1 _].
    eapply Forall_impl; [exact Hal1|]. simpl. intros x Hx. rewrite Hn'. exact Hx.
  - apply read_IMU_inv in Hr1. destruct Hr1 as (Ha & _).
    unfold Type_value, bind, deref, ret. rewrite Ha. reflexivity.
Qed.

Lemma clone_is_independent_witness :
  IMU_state h_kf 1 s_kf /\
  exists b2 h' s2,
    IMU.clone (Some 1%positive) h_kf = Ok (Some b2) h' /\
    IMU_state h' b2 s2 /\ _value (imu_b s2) = v_kf /\ _id (imu_b s2) = -1 /\
    exists h'' s2',
      IMU.update (Some b2) dx1 h' = Ok tt h'' /\ IMU_state h'' b2 s2' /\
      Type_value (Some 1%positive) h'' = Ok v_kf h''.
Proof.
  assert (H0 : IMU_state h_kf 1 s_kf) by state_compute.
  split; [exact H0|].
  destruct (clone_is_independent h_kf 1 s_kf H0)
    as (b2 & h' & s2 & Hrun & Hst2 & _ & _ & Hv & _ & Hid & Hup).
  exists b2, h', s2. split; [exact Hrun|]. split; [exact Hst2|].
  split; [exact Hv|]. split; [now injection Hid|].
  destruct (Hup dx1 eq_refl) as (h'' & s2' & Hrun' & Hst2' & _ & Hval).
  exists h'', s2'. split; [exact Hrun'|]. split; [exact Hst2'|exact Hval].
Defined.

(** *** Searching by identity *)

Lemma find_first_cons x l check :
  find_first (x :: l) check = if decide (Some x = check) then Some x else find_first l check.
Proof.
  unfold find_first. rewrite filter_cons. now destruct (decide (Some x = check)).
Qed.

Lemma find_first_elem l x : x ∈ l -> find_first l (Some x) = Some x.
Proof.
  induction l as [|y l IH]; intros Hx.
  - now apply elem_of_nil in Hx.
  - rewrite find_first_cons. destruct (decide (Some y = Some x)) as [E|E].
    + exact E.
    + apply elem_of_cons in Hx as [->|Hx]; [congruence|auto].
Qed.

Lemma find_first_none l check :
  (forall x, x ∈ l -> check <> Some x) -> find_first l check = None.
Proof.
  induction l as [|y l IH]; intros H; [reflexivity|].
  rewrite find_first_cons. destruct (decide (Some y = check)) as [E|E].
  - exfalso. apply (H y); [apply list_elem_of_here|congruence].
  - apply IH. intros x Hx. apply H. now apply list_elem_of_further.
Qed.

(** C8.  On every IMU state and for every pointer [check],
    [check_if_subvariable(check)] changes nothing and returns the first of
    pose, pose quaternion, pose position, velocity, gyro bias,
    accelerometer bias, keyframe pose, keyframe quaternion, keyframe
    position whose identity is [check]: [check] itself when it is one of
    the nine, [nullptr] when it is none of them, as for the IMU variable
    itself and for [nullptr]. *)
Theorem check_if_subvariable_by_identity h a s check :
  IMU_state h a s ->
  exists r,
    IMU.check_if_subvariable (Some a) check h = Ok r h /\
    r = find_first (subvariables s) check /\
    (forall x, x ∈ subvariables s -> check = Some x -> r = Some x) /\
    ((forall x, x ∈ subvariables s -> check <> Some x) -> r = None) /\
    (check = Some a -> r = None) /\
    (check = None -> r = None).
Proof.
  intros [Hr Hnd _ _].
  exists (find_first (subvariables s) check).
  split; [now apply check_if_subvariable_spec|]. split; [reflexivity|].
  split; [|split; [|split]].
  - intros x Hx ->. now apply find_first_elem.
  - apply find_first_none.
  - intros ->. apply find_first_none. intros x Hx [= ->].
    change (IMU_locs x s) with (x :: subvariables s) in Hnd.
    apply NoDup_cons in Hnd as [Hnot _]. contradiction.
  - intros ->. apply find_first_none. discriminate.
Qed.

Lemma check_if_subvariable_by_identity_witness :
  IMU_state h0 1 s0 /\
  IMU.check_if_subvariable (Some 1%positive) (Some 9%positive) h0 = Ok (Some 9%positive) h0 /\
  IMU.check_if_subvariable (Some 1%positive) (Some 1%positive) h0 = Ok None h0 /\
  IMU.check_if_subvariable (Some 1%positive) (Some 40%positive) h0 = Ok None h0.
Proof.
  assert (H0 : IMU_state h0 1 s0) by state_compute.
  split; [exact H0|].
  split; [|split].
  - destruct (check_if_subvariable_by_identity h0 1 s0 (Some 9%positive) H0)
      as (r & Hrun & _ & Hin & _).
    rewrite Hrun. f_equal. apply (Hin 9%positive); [|reflexivity].
    unfold subvariables. simpl. rewrite !elem_of_cons. tauto.
  - destruct (check_if_subvariable_by_identity h0 1 s0 (Some 1%positive) H0)
      as (r & Hrun & _ & _ & _ & Hself & _).
    rewrite Hrun. f_equal. now apply Hself.
  - destruct (check_if_subvariable_by_identity h0 1 s0 (Some 40%positive) H0)
      as (r & Hrun & _ & _ & Hout & _).
    rewrite Hrun. f_equal. apply Hout. intros x Hx [= <-]. revert Hx.
    unfold subvariables. simpl. rewrite !elem_of_cons, elem_of_nil.
    intros H. repeat destruct H as [H|H]; try discriminate H. exact H.
Defined.

(** C9.  On every IMU state, [update] with a 21-vector, [set_value] with a
    23 x 1 matrix and [set_local_id] succeed and leave the linearization
    value of the variable and of each of its nine sub-variables as it
    was. *)
Theorem update_keeps_linearization_value h a s :
  IMU_state h a s ->
  (forall dx, length dx = 21%nat ->
     exists h' s', IMU.update (Some a) dx h = Ok tt h' /\ IMU_state h' a s' /\
                   fejs s' = fejs s) /\
  (forall v, rows v = 23%nat -> cols v = 1%nat ->
     exists h' s', IMU.set_value (Some a) v h = Ok tt h' /\ IMU_state h' a s' /\
                   fejs s' = fejs s) /\
  (forall i,
     exists h' s', IMU.set_local_id (Some a) i h = Ok tt h' /\ IMU_state h' a s' /\
                   fejs s' = fejs s).
Proof.
  intros Hst. pose proof Hst as [Hr Hnd Hal Hsh].
  pose proof (IMU_shaped_subs s Hsh) as Hsub.
  split; [|split].
  - intros dx Hlen.
    destruct (update_spec h a s dx Hr Hnd Hsh Hlen) as (h' & Hrun & Hn & Hr' & _).
    exists h', (view_update s dx). split; [assumption|]. split; [|reflexivity].
    apply (IMU_state_next h h' a s _ Hst Hr');
      [reflexivity | rewrite Hn; lia | now apply IMU_shaped_update].
  - intros v Hvr Hvc.
    destruct (set_value_spec h a s v Hr Hnd Hsub Hvr Hvc) as (h' & Hrun & Hn & Hr' & _).
    exists h', (view_set_value s v). split; [assumption|]. split; [|reflexivity].
    apply (IMU_state_next h h' a s _ Hst Hr');
      [reflexivity | rewrite Hn; lia | now apply IMU_shaped_set_value].
  - intros i.
    destruct (set_local_id_spec h a s i Hr Hnd) as (h' & Hrun & Hn & Hr' & _).
    exists h', (view_set_local_id s i). split; [assumption|]. split; [|reflexivity].
    apply (IMU_state_next h h' a s _ Hst Hr');
      [reflexivity | rewrite Hn; lia | now apply IMU_shaped_set_local_id].
Qed.

Lemma update_keeps_linearization_value_witness :
  IMU_state h_kf 1 s_kf /\
  exists h' s', IMU.update (Some 1%positive) dx1 h_kf = Ok tt h' /\ IMU_state h' 1 s' /\
                _fej (imu_b s') = v_kf.
Proof.
  assert (H0 : IMU_state h_kf 1 s_kf) by state_compute.
  split; [exact H0|].
  destruct (update_keeps_linearization_value h_kf 1 s_kf H0) as (Hu & _).
  destruct (Hu dx1 eq_refl) as (h' & s' & Hrun & Hst & Hf).
  exists h', s'. split; [exact Hrun|]. split; [exact Hst|].
  now injection Hf.
Defined.

(** C10.  In any store, building a variable with [IMU()] and then running
    any sequence of [set_value], [set_fej], [update] and
    [reset_keyframe_states] calls whose arguments have the right
    dimensions succeeds and ends in an IMU state in which the value of
    pose, velocity, gyro bias, accelerometer bias and keyframe pose, and of
    the quaternion and position of both poses, is the range [0:7), [7:10),
    [10:13), [13:16), [16:23), and [0:4), [4:7), [16:20), [20:23) of the
    flat value, and the same holds of the linearization values.  The empty
    sequence is the state right after construction. *)
Theorem parent_child_consistency h cs :
  forallb valid_call cs = true ->
  exists a h' s,
    (do this <- IMU.new; exec_all this cs;; ret this) h = Ok (Some a) h' /\
    IMU_state h' a s /\ consistent s.
Proof.
  intros Hv.
  destruct (new_spec h) as (h1 & Hrun1 & Hn1 & Hr1 & _).
  pose proof (IMU_state_new h h1 Hrun1 Hn1 Hr1) as Hst1.
  destruct (exec_all_spec cs h1 (next h) _ Hst1 (consistent_default _) Hv)
    as (h' & s' & Hrun & Hst' & Hc').
  exists (next h), h', s'. split; [|auto].
  unfold bind. rewrite Hrun1, Hrun. reflexivity.
Qed.

Lemma parent_child_consistency_witness :
  forallb valid_call calls1 = true /\
  exists a h' s,
    (do this <- IMU.new; exec_all this calls1;; ret this) empty_heap = Ok (Some a) h' /\
    IMU_state h' a s /\ consistent s.
Proof.
  split; [reflexivity|].
  apply (parent_child_consistency empty_heap calls1). reflexivity.
Defined.

(** * More of the class *)

(** ** Accessors and handles *)

Ltac unfold_accessors :=
  unfold value_accessors, fej_accessors, handles,
    IMU.quat, IMU.quat_fej, IMU.pos, IMU.pos_fej, IMU.vel, IMU.vel_fej,
    IMU.bias_g, IMU.bias_g_fej, IMU.bias_a, IMU.bias_a_fej,
    IMU.keyframe_quat, IMU.keyframe_quat_fej, IMU.keyframe_pos, IMU.keyframe_pos_fej,
    IMU.pose, IMU.q, IMU.p, IMU.v, IMU.bg, IMU.ba, IMU.keyframe_pose,
    IMU.keyframe_q, IMU.keyframe_p, IMU.value3, IMU.fej3,
    PoseJPL_quat, PoseJPL_quat_fej, PoseJPL_pos, PoseJPL_pos_fej, has_shape.

Lemma value_accessors_spec h a s :
  read_IMU h a = Some s -> IMU_shaped s = true ->
  map (fun acc => acc (Some a) h) value_accessors = map (fun x => Ok x h) (leaf_values s).
Proof.
  intros Hr Hsh. apply read_IMU_inv in Hr. destruct_and!.
  open_shapes. open_view s.
  unfold leaf_values. unfold_accessors. unfold_ops. heap_simp. reflexivity.
Qed.

Lemma fej_accessors_spec h a s :
  read_IMU h a = Some s -> IMU_shaped s = true ->
  map (fun acc => acc (Some a) h) fej_accessors = map (fun x => Ok x h) (leaf_fejs s).
Proof.
  intros Hr Hsh. apply read_IMU_inv in Hr. destruct_and!.
  open_shapes. open_view s.
  unfold leaf_fejs. unfold_accessors. unfold_ops. heap_simp. reflexivity.
Qed.

Lemma handles_spec h a s :
  read_IMU h a = Some s ->
  map (fun hd => hd (Some a) h) handles = map (fun x => Ok (Some x) h) (subvariables s).
Proof.
  intros Hr. apply read_IMU_inv in Hr. destruct_and!. open_view s.
  unfold subvariables. unfold_accessors. unfold_ops. heap_simp. reflexivity.
Qed.

Lemma leaf_values_set_value s v : leaf_values (view_set_value s v) = ranges v.
Proof. destruct v as [r c l]. vm_compute. reflexivity. Qed.

Lemma leaf_fejs_set_fej s v : leaf_fejs (view_set_fej s v) = ranges v.
Proof. destruct v as [r c l]. vm_compute. reflexivity. Qed.

(** X1.  On every IMU state and for every 23 x 1 matrix [v], unit
    quaternions or not, after [set_value(v)] the accessors [quat()],
    [pos()], [vel()], [bias_g()], [bias_a()], [keyframe_quat()] and
    [keyframe_pos()] return the ranges [0:4), [4:7), [7:10), [10:13),
    [13:16), [16:20) and [20:23) of [v] and leave the store as it is. *)
Theorem value_accessors_after_set_value h a s v :
  IMU_state h a s -> rows v = 23%nat -> cols v = 1%nat ->
  exists h',
    IMU.set_value (Some a) v h = Ok tt h' /\
    map (fun acc => acc (Some a) h') value_accessors = map (fun x => Ok x h') (ranges v).
Proof.
  intros [Hr Hnd Hal Hsh] Hvr Hvc.
  destruct (set_value_spec h a s v Hr Hnd (IMU_shaped_subs s Hsh) Hvr Hvc)
    as (h' & Hrun & _ & Hr' & _).
  exists h'. split; [assumption|].
  rewrite (value_accessors_spec h' a _ Hr' (IMU_shaped_set_value s v Hsh Hvr Hvc)).
  now rewrite leaf_values_set_value.
Qed.

Lemma value_accessors_after_set_value_witness :
  IMU_state h0 1 s0 /\ rows v_kf = 23%nat /\ cols v_kf = 1%nat /\
  exists h',
    IMU.set_value (Some 1%positive) v_kf h0 = Ok tt h' /\
    IMU.keyframe_quat (Some 1%positive) h' = Ok (Mat 4 1 [0.5; 0.5; 0.5; 0.5]%float) h' /\
    IMU.keyframe_pos (Some 1%positive) h' = Ok (Mat 3 1 [1; 2; 3]%float) h'.
Proof.
  assert (H0 : IMU_state h0 1 s0) by state_compute.
  split; [exact H0|]. split; [reflexivity|]. split; [reflexivity|].
  destruct (value_accessors_after_set_value h0 1 s0 v_kf H0 eq_refl eq_refl) as (h' & Hrun & Hacc).
  exists h'. split; [exact Hrun|].
  injection Hacc as _ _ _ _ _ Hkq Hkp. split; assumption.
Defined.

(** X2.  On every IMU state and for every 23 x 1 matrix [v], after
    [set_fej(v)] the accessors [quat_fej()], [pos_fej()], [vel_fej()],
    [bias_g_fej()], [bias_a_fej()], [keyframe_quat_fej()] and
    [keyframe_pos_fej()] return the ranges [0:4), [4:7), [7:10), [10:13),
    [13:16), [16:20) and [20:23) of [v] and leave the store as it is. *)
Theorem fej_accessors_after_set_fej h a s v :
  IMU_state h a s -> rows v = 23%nat -> cols v = 1%nat ->
  exists h',
    IMU.set_fej (Some a) v h = Ok tt h' /\
    map (fun acc => acc (Some a) h') fej_accessors = map (fun x => Ok x h') (ranges v).
Proof.
  intros [Hr Hnd Hal Hsh] Hvr Hvc.
  destruct (set_fej_spec h a s v Hr Hnd (IMU_shaped_subs s Hsh) Hvr Hvc)
    as (h' & Hrun & _ & Hr' & _).
  exists h'. split; [assumption|].
  rewrite (fej_accessors_spec h' a _ Hr' (IMU_shaped_set_fej s v Hsh Hvr Hvc)).
  now rewrite leaf_fejs_set_fej.
Qed.

Lemma fej_accessors_after_set_fej_witness :
  IMU_state h0 1 s0 /\ rows v_kf = 23%nat /\ cols v_kf = 1%nat /\
  exists h',
    IMU.set_fej (Some 1%positive) v_kf h0 = Ok tt h' /\
    IMU.keyframe_quat_fej (Some 1%positive) h' = Ok (Mat 4 1 [0.5; 0.5; 0.5; 0.5]%float) h' /\
    IMU.keyframe_pos_fej (Some 1%positive) h' = Ok (Mat 3 1 [1; 2; 3]%float) h'.
Proof.
  assert (H0 : IMU_state h0 1 s0) by state_compute.
  split; [exact H0|]. split; [reflexivity|]. split; [reflexivity|].
  destruct (fej_accessors_after_set_fej h0 1 s0 v_kf H0 eq_refl eq_refl) as (h' & Hrun & Hacc).
  exists h'. split; [exact Hrun|].
  injection Hacc as _ _ _ _ _ Hkq Hkp. split; assumption.
Defined.

(** X3.  On every IMU state the handles [pose()], [q()], [p()], [v()],
    [bg()], [ba()], [keyframe_pose()], [keyframe_q()] and [keyframe_p()]
    return, in this order, the nine sub-variables in the order
    [check_if_subvariable] looks at them, and [check_if_subvariable] of each
    handle returns that handle. *)
Theorem handles_are_found h a s :
  IMU_state h a s ->
  map (fun hd => hd (Some a) h) handles = map (fun x => Ok (Some x) h) (subvariables s) /\
  Forall (fun x => IMU.check_if_subvariable (Some a) (Some x) h = Ok (Some x) h)
    (subvariables s).
Proof.
  intros [Hr _ _ _]. split; [now apply handles_spec|].
  apply Forall_forall. intros x Hx.
  rewrite (check_if_subvariable_spec h a s (Some x) Hr).
  now rewrite find_first_elem.
Qed.

Lemma handles_are_found_witness :
  IMU_state h0 1 s0 /\
  IMU.keyframe_q (Some 1%positive) h0 = Ok (Some 9%positive) h0 /\
  IMU.check_if_subvariable (Some 1%positive) (Some 9%positive) h0 = Ok (Some 9%positive) h0.
Proof.
  assert (H0 : IMU_state h0 1 s0) by state_compute.
  split; [exact H0|].
  destruct (handles_are_found h0 1 s0 H0) as (Hh & Hf).
  clear H0. revert Hh Hf. generalize h0. intros h Hh Hf.
  split.
  - injection Hh as _ _ _ _ _ _ _ Hkq _. exact Hkq.
  - rewrite Forall_forall in Hf. apply Hf.
    unfold subvariables. simpl. rewrite !elem_of_cons. tauto.
Defined.

(** ** Registration *)

Lemma wrap_int_small z : - 2 ^ 31 <= z < 2 ^ 31 -> wrap_int z = z.
Proof.
  intros Hz. unfold wrap_int. rewrite Z.mod_small by lia. lia.
Qed.

(** X4.  When [i] is not -1 and [i], ..., [i + 15] are all [int]s,
    [set_local_id(i)] gives pose, velocity, gyro bias, accelerometer bias
    and keyframe pose the indices [i], [i + 6], [i + 9], [i + 12] and
    [i + 15]: strictly increasing, each the one before plus that
    sub-variable's error dimension, and the keyframe pose's six entries end
    the span of 21 that starts at [i]. *)
Theorem set_local_id_contiguous h a s i :
  IMU_state h a s -> - 2 ^ 31 <= i -> i + 15 < 2 ^ 31 -> i <> -1 ->
  exists h' s',
    IMU.set_local_id (Some a) i h = Ok tt h' /\ IMU_state h' a s' /\
    [_id (pose_b (pose_v s')); _id (v_b s'); _id (bg_b s'); _id (ba_b s');
     _id (pose_b (kf_v s'))] = [i; i + 6; i + 9; i + 12; i + 15] /\
    _id (pose_b (kf_v s')) + _size (pose_b (kf_v s')) = i + _size (imu_b s').
Proof.
  intros Hst Hlo Hhi Hne. pose proof Hst as [Hr Hnd Hal Hsh].
  destruct (set_local_id_spec h a s i Hr Hnd) as (h' & Hrun & Hn & Hr' & _).
  exists h', (view_set_local_id s i). split; [assumption|]. split.
  { apply (IMU_state_next h h' a s _ Hst Hr');
      [reflexivity | rewrite Hn; lia | now apply IMU_shaped_set_local_id]. }
  open_shapes. open_view s.
  unfold view_set_local_id, next_id, int_add. simpl.
  repeat match goal with H : _size _ = _ |- _ => rewrite H end.
  rewrite !bool_decide_eq_true_2 by assumption.
  rewrite (wrap_int_small (i + 6)) by lia.
  rewrite (wrap_int_small (i + 6 + 3)) by lia.
  rewrite (wrap_int_small (i + 6 + 3 + 3)) by lia.
  rewrite (wrap_int_small (i + 6 + 3 + 3 + 3)) by lia.
  replace (i + 6 + 3 + 3 + 3) with (i + 15) by lia.
  replace (i + 6 + 3 + 3) with (i + 12) by lia.
  replace (i + 6 + 3) with (i + 9) by lia.
  split; [reflexivity | lia].
Qed.

Lemma set_local_id_contiguous_witness :
  IMU_state h0 1 s0 /\
  exists h' s',
    IMU.set_local_id (Some 1%positive) 100 h0 = Ok tt h' /\ IMU_state h' 1 s' /\
    [_id (pose_b (pose_v s')); _id (v_b s'); _id (bg_b s'); _id (ba_b s');
     _id (pose_b (kf_v s'))] = [100; 106; 109; 112; 115].
Proof.
  assert (H0 : IMU_state h0 1 s0) by state_compute.
  split; [exact H0|].
  destruct (set_local_id_contiguous h0 1 s0 100 H0) as (h' & s' & Hrun & Hst & Hids & _);
    [lia | lia | lia |].
  exists h', s'. split; [exact Hrun|]. split; [exact Hst|exact Hids].
Defined.

Lemma view_set_local_id_twice s i j :
  view_set_local_id (view_set_local_id s i) j = view_set_local_id s j.
Proof.
  destruct s as [b pose [pb q qb p pb'] v vb bg bgb ba bab kf [kb kq kqb kp kpb]].
  unfold view_set_local_id, pose_set_local_id, next_id. simpl. reflexivity.
Qed.

(** X5.  On every IMU state, [set_local_id(j)] after [set_local_id(i)]
    leaves the state [set_local_id(j)] alone leaves: the last registration
    wins and none leaves a trace.  With [j = -1] all ten indices are -1
    again, as after construction. *)
Theorem set_local_id_last_wins h a s i j :
  IMU_state h a s ->
  exists h1 h2 h2' s',
    IMU.set_local_id (Some a) i h = Ok tt h1 /\
    IMU.set_local_id (Some a) j h1 = Ok tt h2 /\
    IMU.set_local_id (Some a) j h = Ok tt h2' /\
    IMU_state h2 a s' /\ IMU_state h2' a s' /\
    (j = -1 -> ids s' = repeat (-1) 10).
Proof.
  intros Hst. pose proof Hst as [Hr Hnd Hal Hsh].
  destruct (set_local_id_spec h a s i Hr Hnd) as (h1 & Hrun1 & Hn1 & Hr1 & _).
  assert (Hst1 : IMU_state h1 a (view_set_local_id s i)).
  { apply (IMU_state_next h h1 a s _ Hst Hr1);
      [reflexivity | rewrite Hn1; lia | now apply IMU_shaped_set_local_id]. }
  destruct (set_local_id_spec h1 a _ j Hr1 Hnd) as (h2 & Hrun2 & Hn2 & Hr2 & _).
  rewrite view_set_local_id_twice in Hr2.
  destruct (set_local_id_spec h a s j Hr Hnd) as (h2' & Hrun2' & Hn2' & Hr2' & _).
  exists h1, h2, h2', (view_set_local_id s j).
  split; [assumption|]. split; [assumption|]. split; [assumption|].
  split; [|split].
  - apply (IMU_state_next h h2 a s _ Hst Hr2);
      [reflexivity | rewrite Hn2, Hn1; lia | now apply IMU_shaped_set_local_id].
  - apply (IMU_state_next h h2' a s _ Hst Hr2');
      [reflexivity | rewrite Hn2'; lia | now apply IMU_shaped_set_local_id].
  - intros ->. reflexivity.
Qed.

Lemma set_local_id_last_wins_witness :
  IMU_state h0 1 s0 /\
  exists h1 h2 s',
    IMU.set_local_id (Some 1%positive) 5 h0 = Ok tt h1 /\
    IMU.set_local_id (Some 1%positive) (-1) h1 = Ok tt h2 /\
    IMU_state h2 1 s' /\ ids s' = repeat (-1) 10.
Proof.
  assert (H0 : IMU_state h0 1 s0) by state_compute.
  split; [exact H0|].
  destruct (set_local_id_last_wins h0 1 s0 5 (-1) H0)
    as (h1 & h2 & h2' & s' & Hrun1 & Hrun2 & _ & Hst & _ & Hids).
  exists h1, h2, s'. split; [exact Hrun1|]. split; [exact Hrun2|].
  split; [exact Hst|]. now apply Hids.
Defined.

(** ** What the calls leave alone *)

Lemma ids_exec s c : ids (view_exec s c) = ids s.
Proof. destruct c; reflexivity. Qed.

(** X6.  On every IMU state, any sequence of [set_value], [set_fej],
    [update] and [reset_keyframe_states] calls with arguments of the right
    dimension succeeds and leaves the ten covariance indices and the nine
    sub-variable pointers as they were: a registration survives every
    change of value, and the handles stay valid. *)
Theorem calls_keep_indices_and_wiring cs : forall h a s,
  IMU_state h a s -> forallb valid_call cs = true ->
  exists h' s',
    exec_all (Some a) cs h = Ok tt h' /\ IMU_state h' a s' /\
    ids s' = ids s /\ subvariables s' = subvariables s.
Proof.
  induction cs as [|c cs IH]; intros h a s Hst Hv.
  - exists h, s. auto.
  - simpl in Hv. apply andb_true_iff in Hv as [Hv1 Hv2].
    destruct (exec_spec h a s c Hst Hv1) as (h1 & Hrun1 & Hst1 & _).
    destruct (IH h1 a _ Hst1 Hv2) as (h' & s' & Hrun & Hst' & Hids & Hsub).
    exists h', s'. split; [|split; [assumption|split]].
    + simpl. unfold bind. now rewrite Hrun1.
    + rewrite Hids. apply ids_exec.
    + rewrite Hsub. destruct c; reflexivity.
Qed.

Lemma calls_keep_indices_and_wiring_witness :
  IMU_state h0 1 s0 /\ forallb valid_call calls1 = true /\
  exists h' s',
    exec_all (Some 1%positive) calls1 h0 = Ok tt h' /\ IMU_state h' 1 s' /\
    ids s' = repeat (-1) 10 /\ subvariables s' = [2; 3; 4; 5; 6; 7; 8; 9; 10]%positive.
Proof.
  assert (H0 : IMU_state h0 1 s0) by state_compute.
  split; [exact H0|]. split; [reflexivity|].
  destruct (calls_keep_indices_and_wiring calls1 h0 1 s0 H0 eq_refl)
    as (h' & s' & Hrun & Hst & Hids & Hsub).
  exists h', s'. split; [exact Hrun|]. split; [exact Hst|].
  split; [rewrite Hids | rewrite Hsub]; reflexivity.
Defined.

(** X7.  On every IMU state, [set_fej] with a 23 x 1 matrix and
    [set_local_id] succeed and leave the value of the variable and of each
    of its nine sub-variables as it was: the first estimate and the
    registration never move the current estimate. *)
Theorem set_fej_keeps_values h a s :
  IMU_state h a s ->
  (forall v, rows v = 23%nat -> cols v = 1%nat ->
     exists h' s', IMU.set_fej (Some a) v h = Ok tt h' /\ IMU_state h' a s' /\
                   values s' = values s) /\
  (forall i,
     exists h' s', IMU.set_local_id (Some a) i h = Ok tt h' /\ IMU_state h' a s' /\
                   values s' = values s).
Proof.
  intros Hst. pose proof Hst as [Hr Hnd Hal Hsh].
  pose proof (IMU_shaped_subs s Hsh) as Hsub.
  split.
  - intros v Hvr Hvc.
    destruct (set_fej_spec h a s v Hr Hnd Hsub Hvr Hvc) as (h' & Hrun & Hn & Hr' & _).
    exists h', (view_set_fej s v). split; [assumption|]. split; [|reflexivity].
    apply (IMU_state_next h h' a s _ Hst Hr');
      [reflexivity | rewrite Hn; lia | now apply IMU_shaped_set_fej].
  - intros i.
    destruct (set_local_id_spec h a s i Hr Hnd) as (h' & Hrun & Hn & Hr' & _).
    exists h', (view_set_local_id s i). split; [assumption|]. split; [|reflexivity].
    apply (IMU_state_next h h' a s _ Hst Hr');
      [reflexivity | rewrite Hn; lia | now apply IMU_shaped_set_local_id].
Qed.

Lemma set_fej_keeps_values_witness :
  IMU_state h_kf 1 s_kf /\
  exists h' s', IMU.set_fej (Some 1%positive) IMU.imu0 h_kf = Ok tt h' /\
                IMU_state h' 1 s' /\ _value (imu_b s') = v_kf.
Proof.
  assert (H0 : IMU_state h_kf 1 s_kf) by state_compute.
  split; [exact H0|].
  destruct (set_fej_keeps_values h_kf 1 s_kf H0) as (Hf & _).
  destruct (Hf IMU.imu0 eq_refl eq_refl) as (h' & s' & Hrun & Hst & Hv).
  exists h', s'. split; [exact Hrun|]. split; [exact Hst|].
  now injection Hv.
Defined.

(** ** update without the agreement of the sub-variables *)

Lemma update_value_sources X q kq dx :
  rows X = 23%nat -> cols X = 1%nat ->
  let DX := IMU.VectorXd dx in
  ranges (update_value X q kq dx)
  = [quat_multiply (quatnorm (comma4 (scale 0.5 (block DX 0 0 3 1)) 1)) q;
     mat_add (block X 4 0 3 1) (block DX 3 0 3 1);
     mat_add (block X 7 0 3 1) (block DX 6 0 3 1);
     mat_add (block X 10 0 3 1) (block DX 9 0 3 1);
     mat_add (block X 13 0 3 1) (block DX 12 0 3 1);
     quat_multiply (quatnorm (comma4 (scale 0.5 (block DX 15 0 3 1)) 1)) kq;
     mat_add (block X 20 0 3 1) (block DX 18 0 3 1)].
Proof.
  intros Hr Hc. destruct X as [r c l]. simpl in Hr, Hc. subst r c.
  destruct q as [rq cq lq], kq as [rk ck lk].
  vm_compute. reflexivity.
Qed.

(** X8.  On every IMU state, whether or not its sub-variables agree with
    the flat value, [update(dx)] with a 21-vector succeeds and leaves a
    state whose sub-variables do agree with the new flat value.  The new
    orientation and keyframe orientation are computed from the values of
    the two quaternion sub-variables; the five other ranges are computed
    from the old flat value, whatever the position, velocity and bias
    sub-variables held. *)
Theorem update_reads_flat_value_and_quaternions h a s dx :
  IMU_state h a s -> length dx = 21%nat ->
  exists h' s',
    IMU.update (Some a) dx h = Ok tt h' /\ IMU_state h' a s' /\
    consistent_value s' /\
    let DX := IMU.VectorXd dx in
    let X := _value (imu_b s) in
    leaf_values s'
    = [quat_multiply (quatnorm (comma4 (scale 0.5 (block DX 0 0 3 1)) 1))
         (_value (q_b (pose_v s)));
       mat_add (block X 4 0 3 1) (block DX 3 0 3 1);
       mat_add (block X 7 0 3 1) (block DX 6 0 3 1);
       mat_add (block X 10 0 3 1) (block DX 9 0 3 1);
       mat_add (block X 13 0 3 1) (block DX 12 0 3 1);
       quat_multiply (quatnorm (comma4 (scale 0.5 (block DX 15 0 3 1)) 1))
         (_value (q_b (kf_v s)));
       mat_add (block X 20 0 3 1) (block DX 18 0 3 1)].
Proof.
  intros Hst Hlen. pose proof Hst as [Hr Hnd Hal Hsh].
  destruct (update_spec h a s dx Hr Hnd Hsh Hlen) as (h' & Hrun & Hn & Hr' & _).
  exists h', (view_update s dx). split; [assumption|]. split.
  { apply (IMU_state_next h h' a s _ Hst Hr');
      [reflexivity | rewrite Hn; lia | now apply IMU_shaped_update]. }
  split; [apply consistent_value_set_value|].
  destruct (IMU_shaped_value s Hsh) as (Hvr & Hvc & _).
  unfold view_update. cbv zeta. rewrite leaf_values_set_value.
  now apply update_value_sources.
Qed.

Lemma update_reads_flat_value_and_quaternions_witness :
  IMU_state h_w 1 s_w /\ length dx1 = 21%nat /\
  _value (v_b s_w) = Mat 3 1 [7; 8; 9]%float /\
  exists h' s',
    IMU.update (Some 1%positive) dx1 h_w = Ok tt h' /\ IMU_state h' 1 s' /\
    _value (v_b s') = Mat 3 1 [0.5; 0.5; 0.5]%float.
Proof.
  assert (H0 : IMU_state h_w 1 s_w) by state_compute.
  split; [exact H0|]. split; [reflexivity|]. split; [reflexivity|].
  destruct (update_reads_flat_value_and_quaternions h_w 1 s_w dx1 H0 eq_refl)
    as (h' & s' & Hrun & Hst & _ & Hl).
  exists h', s'. split; [exact Hrun|]. split; [exact Hst|].
  cbv zeta in Hl. injection Hl as _ _ Hv _. rewrite Hv. vm_compute. reflexivity.
Defined.

(** ** How the setters compose *)

Lemma view_set_value_twice s v w :
  view_set_value (view_set_value s v) w = view_set_value s w.
Proof. reflexivity. Qed.

Lemma view_set_value_set_fej s v w :
  view_set_fej (view_set_value s v) w = view_set_value (view_set_fej s w) v.
Proof. reflexivity. Qed.

(** X9.  On every IMU state and for 23 x 1 matrices [v] and [w],
    [set_value(w)] after [set_value(v)] leaves the state [set_value(w)]
    alone leaves: nothing of [v] survives, in the flat value or in any
    sub-variable. *)
Theorem set_value_overwrites h a s v w :
  IMU_state h a s ->
  rows v = 23%nat -> cols v = 1%nat -> rows w = 23%nat -> cols w = 1%nat ->
  exists h1 h2 h2' s',
    IMU.set_value (Some a) v h = Ok tt h1 /\
    IMU.set_value (Some a) w h1 = Ok tt h2 /\
    IMU.set_value (Some a) w h = Ok tt h2' /\
    IMU_state h2 a s' /\ IMU_state h2' a s'.
Proof.
  intros Hst Hvr Hvc Hwr Hwc. pose proof Hst as [Hr Hnd Hal Hsh].
  pose proof (IMU_shaped_subs s Hsh) as Hsub.
  destruct (set_value_spec h a s v Hr Hnd Hsub Hvr Hvc) as (h1 & Hrun1 & Hn1 & Hr1 & _).
  pose proof (IMU_shaped_set_value s v Hsh Hvr Hvc) as Hsh1.
  destruct (set_value_spec h1 a _ w Hr1 Hnd (IMU_shaped_subs _ Hsh1) Hwr Hwc)
    as (h2 & Hrun2 & Hn2 & Hr2 & _).
  rewrite view_set_value_twice in Hr2.
  destruct (set_value_spec h a s w Hr Hnd Hsub Hwr Hwc) as (h2' & Hrun2' & Hn2' & Hr2' & _).
  exists h1, h2, h2', (view_set_value s w).
  split; [assumption|]. split; [assumption|]. split; [assumption|]. split.
  - apply (IMU_state_next h h2 a s _ Hst Hr2);
      [reflexivity | rewrite Hn2, Hn1; lia | now apply IMU_shaped_set_value].
  - apply (IMU_state_next h h2' a s _ Hst Hr2');
      [reflexivity | rewrite Hn2'; lia | now apply IMU_shaped_set_value].
Qed.

Lemma set_value_overwrites_witness :
  IMU_state h0 1 s0 /\
  exists h1 h2 s',
    IMU.set_value (Some 1%positive) v_kf h0 = Ok tt h1 /\
    IMU.set_value (Some 1%positive) IMU.imu0 h1 = Ok tt h2 /\
    IMU_state h2 1 s' /\ exists h2', IMU.set_value (Some 1%positive) IMU.imu0 h0 = Ok tt h2' /\
    IMU_state h2' 1 s'.
Proof.
  assert (H0 : IMU_state h0 1 s0) by state_compute.
  split; [exact H0|].
  destruct (set_value_overwrites h0 1 s0 v_kf IMU.imu0 H0 eq_refl eq_refl eq_refl eq_refl)
    as (h1 & h2 & h2' & s' & Hrun1 & Hrun2 & Hrun2' & Hst & Hst').
  exists h1, h2, s'. split; [exact Hrun1|]. split; [exact Hrun2|]. split; [exact Hst|].
  exists h2'. split; [exact Hrun2'|exact Hst'].
Defined.

(** X10.  On every IMU state and for 23 x 1 matrices [v] and [w],
    [set_value(v)] then [set_fej(w)] and [set_fej(w)] then [set_value(v)]
    both succeed and leave the same state: the current estimate and the
    first estimate are set independently of each other. *)
Theorem set_value_set_fej_commute h a s v w :
  IMU_state h a s ->
  rows v = 23%nat -> cols v = 1%nat -> rows w = 23%nat -> cols w = 1%nat ->
  exists h1 h2 s',
    (IMU.set_value (Some a) v;; IMU.set_fej (Some a) w) h = Ok tt h1 /\
    (IMU.set_fej (Some a) w;; IMU.set_value (Some a) v) h = Ok tt h2 /\
    IMU_state h1 a s' /\ IMU_state h2 a s' /\
    _value (imu_b s') = v /\ _fej (imu_b s') = w.
Proof.
  intros Hst Hvr Hvc Hwr Hwc. pose proof Hst as [Hr Hnd Hal Hsh].
  pose proof (IMU_shaped_subs s Hsh) as Hsub.
  destruct (set_value_spec h a s v Hr Hnd Hsub Hvr Hvc) as (h1 & Hrun1 & Hn1 & Hr1 & _).
  pose proof (IMU_shaped_set_value s v Hsh Hvr Hvc) as Hsh1.
  destruct (set_fej_spec h1 a _ w Hr1 Hnd (IMU_shaped_subs _ Hsh1) Hwr Hwc)
    as (h1' & Hrun1' & Hn1' & Hr1' & _).
  destruct (set_fej_spec h a s w Hr Hnd Hsub Hwr Hwc) as (h2 & Hrun2 & Hn2 & Hr2 & _).
  pose proof (IMU_shaped_set_fej s w Hsh Hwr Hwc) as Hsh2.
  destruct (set_value_spec h2 a _ v Hr2 Hnd (IMU_shaped_subs _ Hsh2) Hvr Hvc)
    as (h2' & Hrun2' & Hn2' & Hr2' & _).
  rewrite <- view_set_value_set_fej in Hr2'.
  exists h1', h2', (view_set_fej (view_set_value s v) w).
  split; [unfold bind; now rewrite Hrun1|]. split; [unfold bind; now rewrite Hrun2|].
  split; [|split; [|split; reflexivity]].
  - apply (IMU_state_next h h1' a s _ Hst Hr1');
      [reflexivity | rewrite Hn1', Hn1; lia | now apply IMU_shaped_set_fej].
  - apply (IMU_state_next h h2' a s _ Hst Hr2');
      [reflexivity | rewrite Hn2', Hn2; lia | now apply IMU_shaped_set_fej].
Qed.

Lemma set_value_set_fej_commute_witness :
  IMU_state h0 1 s0 /\
  exists h1 h2 s',
    (IMU.set_value (Some 1%positive) v_kf;; IMU.set_fej (Some 1%positive) IMU.imu0) h0
      = Ok tt h1 /\
    (IMU.set_fej (Some 1%positive) IMU.imu0;; IMU.set_value (Some 1%positive) v_kf) h0
      = Ok tt h2 /\
    IMU_state h1 1 s' /\ IMU_state h2 1 s'.
Proof.
  assert (H0 : IMU_state h0 1 s0) by state_compute.
  split; [exact H0|].
  destruct (set_value_set_fej_commute h0 1 s0 v_kf IMU.imu0 H0 eq_refl eq_refl eq_refl eq_refl)
    as (h1 & h2 & s' & Hrun1 & Hrun2 & Hst1 & Hst2 & _).
  exists h1, h2, s'. split; [exact Hrun1|]. split; [exact Hrun2|]. split; assumption.
Defined.

(** ** reset_keyframe_states, again *)

Lemma view_reset_twice s :
  IMU_shaped s = true ->
  view_reset_keyframe_states (view_reset_keyframe_states s) = view_reset_keyframe_states s.
Proof.
  intros Hsh. destruct (IMU_shaped_value s Hsh) as (Hvr & Hvc & Hfr & Hfc).
  destruct s as [b pose [pb q qb p pb'] v vb bg bgb ba bab kf [kb kq kqb kp kpb]].
  destruct b as [F X i sz]. simpl in *.
  destruct X as [rx cx lx], F as [rf cf lf]. simpl in *. subst rx cx rf cf.
  vm_compute. reflexivity.
Qed.

(** X11.  On every IMU state, [reset_keyframe_states()] twice leaves the
    state [reset_keyframe_states()] once leaves. *)
Theorem reset_keyframe_states_idempotent h a s :
  IMU_state h a s ->
  exists h1 h2 s',
    IMU.reset_keyframe_states (Some a) h = Ok tt h1 /\ IMU_state h1 a s' /\
    IMU.reset_keyframe_states (Some a) h1 = Ok tt h2 /\ IMU_state h2 a s'.
Proof.
  intros Hst. pose proof Hst as [Hr Hnd Hal Hsh].
  destruct (reset_keyframe_states_spec h a s Hst) as (h1 & Hrun1 & Hn1 & Hr1 & _).
  assert (Hst1 : IMU_state h1 a (view_reset_keyframe_states s)).
  { apply (IMU_state_next h h1 a s _ Hst Hr1);
      [reflexivity | rewrite Hn1; simpl; lia | now apply IMU_shaped_reset]. }
  destruct (reset_keyframe_states_spec h1 a _ Hst1) as (h2 & Hrun2 & Hn2 & Hr2 & _).
  rewrite (view_reset_twice s Hsh) in Hr2.
  exists h1, h2, (view_reset_keyframe_states s).
  split; [assumption|]. split; [assumption|]. split; [assumption|].
  apply (IMU_state_next h1 h2 a _ _ Hst1 Hr2);
    [reflexivity | rewrite Hn2; simpl; lia | now apply IMU_shaped_reset].
Qed.

Lemma reset_keyframe_states_idempotent_witness :
  IMU_state h_kf 1 s_kf /\
  exists h1 h2 s',
    IMU.reset_keyframe_states (Some 1%positive) h_kf = Ok tt h1 /\ IMU_state h1 1 s' /\
    IMU.reset_keyframe_states (Some 1%positive) h1 = Ok tt h2 /\ IMU_state h2 1 s'.
Proof.
  assert (H0 : IMU_state h_kf 1 s_kf) by state_compute.
  split; [exact H0|].
  exact (reset_keyframe_states_idempotent h_kf 1 s_kf H0).
Defined.

(** ** clone, again *)

(** the copy and the original after [clone]: two states in one store, the
    copy made of objects allocated by the call *)
Lemma clone_states h b1 s :
  IMU_state h b1 s ->
  exists h',
    IMU.clone (Some b1) h = Ok (Some (next h)) h' /\
    IMU_state h' (next h) (view_clone (next h) s) /\ IMU_state h' b1 s /\
    (forall x, x ∈ IMU_locs (next h) (view_clone (next h) s) -> (next h <= x)%positive) /\
    (forall x, x ∈ IMU_locs b1 s -> (x < next h)%positive).
Proof.
  intros Hst. pose proof Hst as [Hr Hnd Hal Hsh].
  destruct (IMU_shaped_value s Hsh) as (Hvr & Hvc & Hfr & Hfc).
  destruct (clone_spec h b1 s Hst) as (h' & Hrun & Hn & Hr2 & Hf).
  set (b2 := next h) in *. set (s2 := view_clone b2 s) in *.
  assert (Hlocs : IMU_locs b2 s2 = IMU_locs b2 (default_view b2)) by reflexivity.
  assert (Hnew : Forall (fun x => (next h <= x)%positive /\ (x < next h')%positive)
                   (IMU_locs b2 s2)).
  { rewrite Hlocs, Hn. unfold IMU_locs, b2. simpl.
    repeat (apply Forall_cons; split; [lia|]). apply Forall_nil_2. }
  assert (Hold : forall x, x ∈ IMU_locs b1 s -> (x < next h)%positive)
    by (intros x; apply (IMU_state_alloc _ _ _ _ Hst)).
  exists h'. split; [assumption|]. split; [|split; [|split]].
  - split; [assumption|rewrite Hlocs; apply NoDup_default| |].
    + eapply Forall_impl; [exact Hnew|]. simpl. tauto.
    + unfold s2, view_clone. apply IMU_shaped_set_fej; [|assumption|assumption].
      apply IMU_shaped_set_value; [reflexivity|assumption|assumption].
  - split; [|assumption| |assumption].
    + apply (read_IMU_agree h h' b1 s Hr). intros x Hx. apply Hf. now apply Hold.
    + eapply Forall_impl; [exact Hal|]. simpl. intros x Hx. rewrite Hn. simpl. lia.
  - intros x Hx. rewrite Forall_forall in Hnew. now apply Hnew.
  - exact Hold.
Qed.

(** X12.  On every IMU state, whether or not its sub-variables agree with
    its flat vectors, the sub-variables of the copy [clone()] returns do
    agree with the copy's: they hold the ranges of the original's flat
    value and flat linearization value, not what the original's
    sub-variables held. *)
Theorem clone_copies_flat_vectors h b1 s :
  IMU_state h b1 s ->
  exists b2 h' s2,
    IMU.clone (Some b1) h = Ok (Some b2) h' /\ IMU_state h' b2 s2 /\
    consistent s2 /\
    leaf_values s2 = ranges (_value (imu_b s)) /\
    leaf_fejs s2 = ranges (_fej (imu_b s)).
Proof.
  intros Hst.
  destruct (clone_states h b1 s Hst) as (h' & Hrun & Hst2 & _).
  exists (next h), h', (view_clone (next h) s).
  split; [assumption|]. split; [assumption|]. unfold view_clone.
  split; [split|split].
  - apply consistent_value_set_fej, consistent_value_set_value.
  - apply consistent_fej_set_fej.
  - apply (leaf_values_set_value (default_view (next h))).
  - apply leaf_fejs_set_fej.
Qed.

Lemma clone_copies_flat_vectors_witness :
  IMU_state h_w 1 s_w /\ ~ consistent_value s_w /\
  exists b2 h' s2,
    IMU.clone (Some 1%positive) h_w = Ok (Some b2) h' /\ IMU_state h' b2 s2 /\
    consistent s2 /\ _value (v_b s2) = Mat 3 1 [0; 0; 0]%float.
Proof.
  assert (H0 : IMU_state h_w 1 s_w) by state_compute.
  split; [exact H0|]. split.
  { intros (_ & _ & _ & Hv & _). vm_compute in Hv. discriminate Hv. }
  destruct (clone_copies_flat_vectors h_w 1 s_w H0) as (b2 & h' & s2 & Hrun & Hst & Hc & Hl & _).
  exists b2, h', s2. split; [exact Hrun|]. split; [exact Hst|]. split; [exact Hc|].
  injection Hl as _ _ Hv _. rewrite Hv. vm_compute. reflexivity.
Defined.

(** X13.  After [clone()], [check_if_subvariable] of the original finds
    none of the ten objects of the copy, and [check_if_subvariable] of the
    copy finds none of the ten objects of the original. *)
Theorem clone_shares_no_subvariable h b1 s :
  IMU_state h b1 s ->
  exists b2 h' s2,
    IMU.clone (Some b1) h = Ok (Some b2) h' /\ IMU_state h' b2 s2 /\
    Forall (fun x => IMU.check_if_subvariable (Some b1) (Some x) h' = Ok None h')
      (IMU_locs b2 s2) /\
    Forall (fun x => IMU.check_if_subvariable (Some b2) (Some x) h' = Ok None h')
      (IMU_locs b1 s).
Proof.
  intros Hst.
  destruct (clone_states h b1 s Hst) as (h' & Hrun & Hst2 & Hst1 & Hnew & Hold).
  exists (next h), h', (view_clone (next h) s).
  split; [assumption|]. split; [assumption|]. split.
  - apply Forall_forall. intros x Hx.
    rewrite (check_if_subvariable_spec h' b1 s (Some x)) by apply Hst1.
    rewrite find_first_none; [reflexivity|].
    intros y Hy [= <-]. apply Hnew in Hx.
    assert (Hy' : x ∈ IMU_locs b1 s) by (now apply list_elem_of_further).
    apply Hold in Hy'. lia.
  - apply Forall_forall. intros x Hx.
    rewrite (check_if_subvariable_spec h' (next h) _ (Some x)) by apply Hst2.
    rewrite find_first_none; [reflexivity|].
    intros y Hy [= <-]. apply Hold in Hx.
    assert (Hy' : x ∈ IMU_locs (next h) (view_clone (next h) s))
      by (now apply list_elem_of_further).
    apply Hnew in Hy'. lia.
Qed.

Lemma clone_shares_no_subvariable_witness :
  IMU_state h0 1 s0 /\
  exists b2 h' s2,
    IMU.clone (Some 1%positive) h0 = Ok (Some b2) h' /\ IMU_state h' b2 s2 /\
    IMU.check_if_subvariable (Some b2) (Some 2%positive) h' = Ok None h'.
Proof.
  assert (H0 : IMU_state h0 1 s0) by state_compute.
  split; [exact H0|].
  destruct (clone_shares_no_subvariable h0 1 s0 H0) as (b2 & h' & s2 & Hrun & Hst & _ & Hf).
  exists b2, h', s2. split; [exact Hrun|]. split; [exact Hst|].
  rewrite Forall_forall in Hf. apply Hf.
  unfold IMU_locs. simpl. rewrite !elem_of_cons. tauto.
Defined.

(** ** Writing through a handle *)

Lemma write_v_spec h a s w :
  IMU_state h a s -> rows w = 3%nat -> cols w = 1%nat ->
  exists h',
    (do vp <- IMU.v (Some a); Type_set_value vp w) h = Ok tt h' /\
    IMU_state h' a (view_write_v s w).
Proof.
  intros Hst Hwr Hwc. pose proof Hst as [Hr Hnd Hal Hsh].
  assert (Hsh' : IMU_shaped (view_write_v s w) = true) by shape_solve s.
  assert (Hlt : Forall (fun x => (x < next h)%positive) (IMU_locs a s)) by exact Hal.
  assert (Hnd' : NoDup (IMU_locs a (view_write_v s w))) by exact Hnd.
  apply read_IMU_inv in Hr. destruct_and!.
  unfold IMU_locs in Hnd. nodup_facts Hnd. revert Hsh' Hnd' Hlt. open_shapes. open_view s.
  intros Hsh' Hnd' Hlt. eexists. split.
  { unfold IMU.v. unfold_ops. heap_simp. reflexivity. }
  split; [unfold_reads; heap_simp; reflexivity | exact Hnd' | exact Hlt | exact Hsh'].
Qed.

(** X14.  On every IMU state and for every 3 x 1 matrix [w], after [w] was
    written through the handle [v()], [vel()] returns [w] and [value()]
    still returns the flat value of before: the write does not reach the
    flat vector.  The next [update(dx)] computes the velocity from that
    flat vector, so [vel()] then returns its range [7:10) plus [dx[6:9]]
    and [w] is gone. *)
Theorem write_through_handle_is_lost h a s w dx :
  IMU_state h a s -> rows w = 3%nat -> cols w = 1%nat -> length dx = 21%nat ->
  exists h1 h2,
    (do vp <- IMU.v (Some a); Type_set_value vp w) h = Ok tt h1 /\
    IMU.vel (Some a) h1 = Ok w h1 /\
    Type_value (Some a) h1 = Ok (_value (imu_b s)) h1 /\
    IMU.update (Some a) dx h1 = Ok tt h2 /\
    IMU.vel (Some a) h2
      = Ok (mat_add (block (_value (imu_b s)) 7 0 3 1) (block (IMU.VectorXd dx) 6 0 3 1)) h2.
Proof.
  intros Hst Hwr Hwc Hlen.
  destruct (write_v_spec h a s w Hst Hwr Hwc) as (h1 & Hrun1 & Hst1).
  pose proof Hst1 as [Hr1 Hnd1 Hal1 Hsh1].
  destruct (update_spec h1 a _ dx Hr1 Hnd1 Hsh1 Hlen) as (h2 & Hrun2 & Hn2 & Hr2 & _).
  pose proof (value_accessors_spec h1 a _ Hr1 Hsh1) as Hacc1.
  pose proof (value_accessors_spec h2 a _ Hr2 (IMU_shaped_update _ dx Hsh1)) as Hacc2.
  destruct (IMU_shaped_value _ Hsh1) as (Hvr & Hvc & _).
  unfold view_update in Hacc2. rewrite leaf_values_set_value in Hacc2.
  rewrite (update_value_sources _ _ _ dx Hvr Hvc) in Hacc2.
  injection Hacc1 as _ _ Hvel1 _. injection Hacc2 as _ _ Hvel2 _.
  exists h1, h2. split; [assumption|]. split; [exact Hvel1|]. split; [|split].
  - apply read_IMU_inv in Hr1. destruct Hr1 as (Ha & _).
    unfold Type_value, bind, deref, ret. rewrite Ha. reflexivity.
  - assumption.
  - exact Hvel2.
Qed.

Lemma write_through_handle_is_lost_witness :
  IMU_state h_kf 1 s_kf /\ rows w1 = 3%nat /\ cols w1 = 1%nat /\ length dx1 = 21%nat /\
  exists h1 h2,
    (do vp <- IMU.v (Some 1%positive); Type_set_value vp w1) h_kf = Ok tt h1 /\
    IMU.vel (Some 1%positive) h1 = Ok (Mat 3 1 [7; 8; 9]%float) h1 /\
    Type_value (Some 1%positive) h1 = Ok v_kf h1 /\
    IMU.update (Some 1%positive) dx1 h1 = Ok tt h2 /\
    IMU.vel (Some 1%positive) h2 = Ok (Mat 3 1 [0.5; 0.5; 0.5]%float) h2.
Proof.
  assert (H0 : IMU_state h_kf 1 s_kf) by state_compute.
  split; [exact H0|]. split; [reflexivity|]. split; [reflexivity|]. split; [reflexivity|].
  destruct (write_through_handle_is_lost h_kf 1 s_kf w1 dx1 H0 eq_refl eq_refl eq_refl)
    as (h1 & h2 & Hrun1 & Hvel1 & Hval & Hrun2 & Hvel2).
  exists h1, h2. split; [exact Hrun1|]. split; [exact Hvel1|]. split; [exact Hval|].
  split; [exact Hrun2|]. rewrite Hvel2. f_equal.
Defined.

(** ** Construction, and two variables in one store *)

(** X15.  In any store, [IMU()] succeeds and returns a variable made of ten
    objects allocated by the call; every object the store held is as it
    was.  The new variable is unregistered (all ten indices -1), its
    linearization values are its values, its flat value is [imu0], and the
    error dimensions are 21 for the variable, 6 for the two poses and 3 for
    every other sub-variable. *)
Theorem constructor_postcondition h :
  exists a h' s,
    IMU.new h = Ok (Some a) h' /\ IMU_state h' a s /\
    Forall (fun x => (next h <= x)%positive) (IMU_locs a s) /\
    (forall x, (x < next h)%positive -> objs h' !! x = objs h !! x) /\
    ids s = repeat (-1) 10 /\
    fejs s = values s /\
    _value (imu_b s) = IMU.imu0 /\
    [_size (imu_b s); _size (pose_b (pose_v s)); _size (q_b (pose_v s));
     _size (p_b (pose_v s)); _size (v_b s); _size (bg_b s); _size (ba_b s);
     _size (pose_b (kf_v s)); _size (q_b (kf_v s)); _size (p_b (kf_v s))]
    = [21; 6; 3; 3; 3; 3; 3; 6; 3; 3].
Proof.
  destruct (new_spec h) as (h' & Hrun & Hn & Hr & Hf).
  exists (next h), h', (default_view (next h)).
  split; [assumption|]. split; [now apply IMU_state_new|]. split.
  { unfold IMU_locs. simpl. repeat (apply Forall_cons; split; [lia|]). apply Forall_nil_2. }
  split; [assumption|].
  repeat split; vm_compute; reflexivity.
Qed.

(** a call changes none of the objects allocated before it that are not
    the variable's, and gives nothing back to the allocator *)
Lemma exec_frame h a s c :
  IMU_state h a s -> valid_call c = true ->
  exists h', exec (Some a) c h = Ok tt h' /\ IMU_state h' a (view_exec s c) /\
    (next h <= next h')%positive /\
    (forall x, x ∉ IMU_locs a s -> (x < next h)%positive -> objs h' !! x = objs h !! x).
Proof.
  intros Hst Hv. destruct (exec_spec h a s c Hst Hv) as (h' & Hrun & Hst' & Hf).
  exists h'. split; [assumption|]. split; [assumption|]. split; [|assumption].
  pose proof Hst as [Hr Hnd Hal Hsh]. pose proof (IMU_shaped_subs s Hsh) as Hsub.
  destruct c as [v|v|dx|]; simpl in Hv, Hrun.
  - apply valid_call_shape in Hv as [Hvr Hvc].
    destruct (set_value_spec h a s v Hr Hnd Hsub Hvr Hvc) as (h2 & E & En & _).
    rewrite E in Hrun. injection Hrun as <-. rewrite En. lia.
  - apply valid_call_shape in Hv as [Hvr Hvc].
    destruct (set_fej_spec h a s v Hr Hnd Hsub Hvr Hvc) as (h2 & E & En & _).
    rewrite E in Hrun. injection Hrun as <-. rewrite En. lia.
  - apply Nat.eqb_eq in Hv.
    destruct (update_spec h a s dx Hr Hnd Hsh Hv) as (h2 & E & En & _).
    rewrite E in Hrun. injection Hrun as <-. rewrite En. lia.
  - destruct (reset_keyframe_states_spec h a s Hst) as (h2 & E & En & _).
    rewrite E in Hrun. injection Hrun as <-. rewrite En. simpl. lia.
Qed.

Lemma exec_all_keeps_other cs : forall h a sa b sb,
  IMU_state h a sa -> IMU_state h b sb ->
  (forall x, x ∈ IMU_locs b sb -> x ∉ IMU_locs a sa) ->
  forallb valid_call cs = true ->
  exists h' sa', exec_all (Some a) cs h = Ok tt h' /\
    IMU_state h' a sa' /\ IMU_state h' b sb.
Proof.
  induction cs as [|c cs IH]; intros h a sa b sb Hsa Hsb Hdis Hv.
  - exists h, sa. auto.
  - simpl in Hv. apply andb_true_iff in Hv as [Hv1 Hv2].
    destruct (exec_frame h a sa c Hsa Hv1) as (h1 & Hrun1 & Hsa1 & Hle & Hf).
    assert (Hsb1 : IMU_state h1 b sb).
    { pose proof Hsb as [Hr Hnd Hal Hsh]. split; [|assumption| |assumption].
      - apply (read_IMU_agree h h1 b sb Hr). intros x Hx. apply Hf; [now apply Hdis|].
        rewrite Forall_forall in Hal. now apply Hal.
      - eapply Forall_impl; [exact Hal|]. simpl. intros x Hx. lia. }
    assert (Hdis1 : forall x, x ∈ IMU_locs b sb -> x ∉ IMU_locs a (view_exec sa c)).
    { intros x Hx. destruct c; now apply Hdis. }
    destruct (IH h1 a _ b sb Hsa1 Hsb1 Hdis1 Hv2) as (h' & sa' & Hrun & Hsa' & Hsb').
    exists h', sa'. split; [|auto].
    simpl. unfold bind. now rewrite Hrun1.
Qed.

(** X16.  When a store holds two IMU variables that share no object, any
    sequence of [set_value], [set_fej], [update] and
    [reset_keyframe_states] calls on the first, and any [set_local_id] on
    it, succeeds and leaves the second in the state it was in. *)
Theorem calls_leave_other_variable h a sa b sb :
  IMU_state h a sa -> IMU_state h b sb ->
  (forall x, x ∈ IMU_locs b sb -> x ∉ IMU_locs a sa) ->
  (forall cs, forallb valid_call cs = true ->
     exists h' sa', exec_all (Some a) cs h = Ok tt h' /\
       IMU_state h' a sa' /\ IMU_state h' b sb) /\
  (forall i,
     exists h' sa', IMU.set_local_id (Some a) i h = Ok tt h' /\
       IMU_state h' a sa' /\ IMU_state h' b sb).
Proof.
  intros Hsa Hsb Hdis. split.
  - intros cs Hv. now apply (exec_all_keeps_other cs h a sa b sb).
  - intros i. pose proof Hsa as [Hr Hnd Hal Hsh].
    destruct (set_local_id_spec h a sa i Hr Hnd) as (h' & Hrun & Hn & Hr' & Hf).
    exists h', (view_set_local_id sa i). split; [assumption|]. split.
    + apply (IMU_state_next h h' a sa _ Hsa Hr');
        [reflexivity | rewrite Hn; lia | now apply IMU_shaped_set_local_id].
    + pose proof Hsb as [Hrb Hndb Halb Hshb]. split; [|assumption| |assumption].
      * apply (read_IMU_agree h h' b sb Hrb). intros x Hx. apply Hf. now apply Hdis.
      * now rewrite Hn.
Qed.

Lemma calls_leave_other_variable_witness :
  IMU_state h_two 11 s_two /\ IMU_state h_two 1 s_kf /\
  (forall x, x ∈ IMU_locs 1 s_kf -> x ∉ IMU_locs 11 s_two) /\
  forallb valid_call calls1 = true /\
  exists h' sa', exec_all (Some 11%positive) calls1 h_two = Ok tt h' /\
    IMU_state h' 11 sa' /\ IMU_state h' 1 s_kf.
Proof.
  assert (Ha : IMU_state h_two 11 s_two).
  { split; [vm_compute; reflexivity | exact (NoDup_default 11) | | reflexivity].
    unfold IMU_locs. simpl. repeat (apply Forall_cons; split; [reflexivity|]).
    apply Forall_nil_2. }
  assert (Hb : IMU_state h_two 1 s_kf) by state_compute.
  assert (Hdis : forall x, x ∈ IMU_locs 1 s_kf -> x ∉ IMU_locs 11 s_two).
  { intros x Hx Hx'. revert Hx Hx'. unfold IMU_locs. simpl.
    rewrite !elem_of_cons, !elem_of_nil. intros H1 H2.
    repeat destruct H1 as [H1|H1]; try contradiction; subst x;
      repeat destruct H2 as [H2|H2]; try contradiction; discriminate H2. }
  split; [exact Ha|]. split; [exact Hb|]. split; [exact Hdis|]. split; [reflexivity|].
  destruct (calls_leave_other_variable h_two 11 s_two 1 s_kf Ha Hb Hdis) as (Hcs & _).
  exact (Hcs calls1 eq_refl).
Defined.
